(** * Asset tracking between locations of cloud connectors

    A shallow embedding of the per-sensor buffering engine
    ([tracking/sensors.py], of which [project/sensors.py] is a copy with
    [locations] called [zones] and [location_map] called [zm]) and of the
    replay loop of [tracking/director.py], with the properties of the
    design document stated and settled over them.

    Conventions of the embedding.
    - A Python [dict] from connector id to row index is a [gmap string nat];
      [len(self.ccons)] is [size].
    - Python lists are Rocq lists; [l.append(x)] is [l ++ [x]]; an indexed
      read or write that Python rejects raises the same exception here.
    - A unix time is a float in the source. The embedding names every
      float by an integer, in increasing order, so that the comparisons of
      the source are those of [Z]. The sum and the difference of two
      floats round; they are parameters of a run, [float_add] and
      [float_sub] of [Setup]. [Params] is the case of whole numbers of
      seconds, each its own name, which floats add and subtract without
      rounding.
    - An event keeps the four fields the tracker reads:
      [event['targetName']], the first cloud connector's ['id'] and
      ['signalStrength'], and the unix time that
      [hlp.convert_event_data_timestamp] returns for ['updateTime'].
    - A method that mutates [self] and may raise is a function from the
      state to an [outcome]: the state it leaves behind, and the exception
      if one was raised. *)

From Stdlib Require Import ZArith Lia Ascii.
From stdpp Require Import base option list numbers strings gmap sorting.

Local Open Scope Z_scope.

(** * Part I: the program *)

(** ** Events *)

Record Event := mkEvent {
  targetName : string;
  ccon_id : string;
  signalStrength : Z;
  updateTime : Z
}.

(** ** The sensor object *)

(** One cell of a row of the RSSI matrix: [None] is Python's [None], the
    entry every configured row starts with. *)
Abbreviation cell := (option Z).

Record Sensor := mkSensor {
  sensor_id : string;
  unixtime : list (option Z);
  rssi : list (list cell);
  ccons : gmap string nat;
  ccon_ids : list string;
  max_rssi : list (option Z);
  n_events : nat;
  last_event : Z;
  buffering : bool;
  event_buffer : list Event;
  location_map : list nat;
  (** [None] while the attribute [location_map_unknown] has not been set. *)
  location_map_unknown : option nat
}.

Definition set_unixtime (v : list (option Z)) (s : Sensor) : Sensor :=
  mkSensor (sensor_id s) v (rssi s) (ccons s) (ccon_ids s) (max_rssi s)
    (n_events s) (last_event s) (buffering s) (event_buffer s)
    (location_map s) (location_map_unknown s).

Definition set_rssi (v : list (list cell)) (s : Sensor) : Sensor :=
  mkSensor (sensor_id s) (unixtime s) v (ccons s) (ccon_ids s) (max_rssi s)
    (n_events s) (last_event s) (buffering s) (event_buffer s)
    (location_map s) (location_map_unknown s).

Definition set_ccons (v : gmap string nat) (s : Sensor) : Sensor :=
  mkSensor (sensor_id s) (unixtime s) (rssi s) v (ccon_ids s) (max_rssi s)
    (n_events s) (last_event s) (buffering s) (event_buffer s)
    (location_map s) (location_map_unknown s).

Definition set_ccon_ids (v : list string) (s : Sensor) : Sensor :=
  mkSensor (sensor_id s) (unixtime s) (rssi s) (ccons s) v (max_rssi s)
    (n_events s) (last_event s) (buffering s) (event_buffer s)
    (location_map s) (location_map_unknown s).

Definition set_max_rssi (v : list (option Z)) (s : Sensor) : Sensor :=
  mkSensor (sensor_id s) (unixtime s) (rssi s) (ccons s) (ccon_ids s) v
    (n_events s) (last_event s) (buffering s) (event_buffer s)
    (location_map s) (location_map_unknown s).

Definition set_n_events (v : nat) (s : Sensor) : Sensor :=
  mkSensor (sensor_id s) (unixtime s) (rssi s) (ccons s) (ccon_ids s)
    (max_rssi s) v (last_event s) (buffering s) (event_buffer s)
    (location_map s) (location_map_unknown s).

Definition set_last_event (v : Z) (s : Sensor) : Sensor :=
  mkSensor (sensor_id s) (unixtime s) (rssi s) (ccons s) (ccon_ids s)
    (max_rssi s) (n_events s) v (buffering s) (event_buffer s)
    (location_map s) (location_map_unknown s).

Definition set_buffering (v : bool) (s : Sensor) : Sensor :=
  mkSensor (sensor_id s) (unixtime s) (rssi s) (ccons s) (ccon_ids s)
    (max_rssi s) (n_events s) (last_event s) v (event_buffer s)
    (location_map s) (location_map_unknown s).

Definition set_event_buffer (v : list Event) (s : Sensor) : Sensor :=
  mkSensor (sensor_id s) (unixtime s) (rssi s) (ccons s) (ccon_ids s)
    (max_rssi s) (n_events s) (last_event s) (buffering s) v
    (location_map s) (location_map_unknown s).

Definition set_location_map (v : list nat) (s : Sensor) : Sensor :=
  mkSensor (sensor_id s) (unixtime s) (rssi s) (ccons s) (ccon_ids s)
    (max_rssi s) (n_events s) (last_event s) (buffering s) (event_buffer s)
    v (location_map_unknown s).

(** ** Exceptions and outcomes *)

Inductive exn := IndexError | KeyError | AttributeError | TypeError.

Inductive outcome :=
| Done (s : Sensor)
| Raised (e : exn) (s : Sensor).

Definition bind (o : outcome) (k : Sensor → outcome) : outcome :=
  match o with
  | Done s => k s
  | Raised e s => Raised e s
  end.

Notation "o >>= k" := (bind o k) (at level 50, left associativity).

(** The state an outcome leaves, raised or not. *)
Definition state_of (o : outcome) : Sensor :=
  match o with Done s => s | Raised _ s => s end.

(** ** [Sensor.__init__] and [__initialise_ccons_list] *)

(** A location of the configuration is the list under its ['ccons'] key. *)
Definition location := list string.

(** First double loop: [self.ccons[ccon] = len(self.ccons)] and
    [self.rssi.append([None])] for every connector of every location. *)
Definition add_ccon (acc : gmap string nat * list (list cell)) (ccon : string)
  : gmap string nat * list (list cell) :=
  (<[ccon := size acc.1]> acc.1, acc.2 ++ [[None]]).

Definition initial_ccons (locations : list location)
  : gmap string nat * list (list cell) :=
  foldl add_ccon (∅, []) (concat locations).

(** Second double loop, [i] counting the locations: every connector of
    location [i] appends [i] to the map and sets the unknown id to [i + 1]. *)
Definition add_location (i : nat) (acc : list nat * option nat) (loc : location)
  : list nat * option nat :=
  foldl (λ a _, (a.1 ++ [i], Some (i + 1)%nat)) acc loc.

Fixpoint location_map_loop (i : nat) (locations : list location)
    (acc : list nat * option nat) : list nat * option nat :=
  match locations with
  | [] => acc
  | loc :: rest => location_map_loop (S i) rest (add_location i acc loc)
  end.

Definition initial_location_map (locations : list location)
  : list nat * option nat :=
  location_map_loop 0 locations ([], None).

Definition new_Sensor (locations : list location) (id : string) : Sensor :=
  {| sensor_id := id;
     unixtime := [None];
     rssi := (initial_ccons locations).2;
     ccons := (initial_ccons locations).1;
     ccon_ids := [];
     max_rssi := [None];
     n_events := 1;
     last_event := -1;
     buffering := false;
     event_buffer := [];
     location_map := (initial_location_map locations).1;
     location_map_unknown := (initial_location_map locations).2 |}.

(** ** [new_event_data] *)

Definition same_ccon (a b : Event) : bool :=
  bool_decide (ccon_id a = ccon_id b).

(** The loop over the buffer: every entry of the event's connector is
    overwritten by the event. *)
Definition overwrite (event : Event) (buffer : list Event) : list Event :=
  map (λ e, if same_ccon e event then event else e) buffer.

Definition exists_in (event : Event) (buffer : list Event) : bool :=
  existsb (λ e, same_ccon e event) buffer.

Definition new_event_data (s : Sensor) (event : Event) : Sensor :=
  let buffer := overwrite event (event_buffer s) in
  let buffer := if exists_in event (event_buffer s) then buffer
                else buffer ++ [event] in
  set_buffering true
    (set_last_event (updateTime event) (set_event_buffer buffer s)).

(** ** [update_event_data] *)

(** The body of [if ccon['id'] not in self.ccons]. The unknown location id
    is read last, after the row, the index and the id list were extended. *)
Definition register_ccon (s : Sensor) (id : string) : outcome :=
  let s1 := set_rssi (rssi s ++ [replicate (n_events s - 1) (Some 0)]) s in
  let s2 := set_ccons (<[id := size (ccons s1)]> (ccons s1)) s1 in
  let s3 := set_ccon_ids (ccon_ids s2 ++ [id]) s2 in
  match location_map_unknown s3 with
  | None => Raised AttributeError s3
  | Some u => Done (set_location_map (location_map s3 ++ [u]) s3)
  end.

(** [self.rssi[self.ccons[ccon['id']]].append(ccon['signalStrength'])] *)
Definition append_rssi (s : Sensor) (event : Event) : outcome :=
  match ccons s !! ccon_id event with
  | None => Raised KeyError s
  | Some ix =>
      match rssi s !! ix with
      | None => Raised IndexError s
      | Some row =>
          Done (set_rssi (<[ix := row ++ [Some (signalStrength event)]]> (rssi s)) s)
      end
  end.

(** One turn of [for event in self.event_buffer]. *)
Definition commit_event (s : Sensor) (event : Event) : outcome :=
  (match ccons s !! ccon_id event with
   | None => register_ccon s (ccon_id event)
   | Some _ => Done s
   end) >>= λ s', append_rssi s' event.

Fixpoint commit_events (events : list Event) (s : Sensor) : outcome :=
  match events with
  | [] => Done s
  | event :: rest => commit_event s event >>= commit_events rest
  end.

(** "append minimum value to non-talking ccon rows" *)
Definition pad_row (n : nat) (row : list cell) : list cell :=
  if (length row <? n)%nat then row ++ [Some 0] else row.

Definition pad_rows (n : nat) (rows : list (list cell)) : list (list cell) :=
  pad_row n <$> rows.

(** "get max rssi": [i] is the loop index, [argmax] and [valmax] the two
    variables of the source, both started at [-1]. *)
Fixpoint max_loop (rows : list (list cell)) (i argmax valmax : Z) : exn + Z :=
  match rows with
  | [] => inr argmax
  | row :: rest =>
      match last row with
      | None => inl IndexError
      | Some None => inl TypeError
      | Some (Some v) =>
          if v >? valmax then max_loop rest (i + 1) i v
          else max_loop rest (i + 1) argmax valmax
      end
  end.

Definition get_max_rssi (rows : list (list cell)) : exn + Z :=
  max_loop rows 0 (-1) (-1).

Definition finish_update (s : Sensor) : outcome :=
  let s1 := set_rssi (pad_rows (n_events s) (rssi s)) s in
  match get_max_rssi (rssi s1) with
  | inl e => Raised e s1
  | inr argmax =>
      Done (set_event_buffer []
             (set_buffering false
               (set_max_rssi (max_rssi s1 ++ [Some argmax]) s1)))
  end.

Definition update_event_data (s : Sensor) (ux_calltime : Z) : outcome :=
  match last (event_buffer s) with
  | None => Raised IndexError s
  | Some _ =>
      let s1 := set_unixtime (unixtime s ++ [Some ux_calltime]) s in
      let s2 := set_n_events (S (n_events s1)) s1 in
      commit_events (event_buffer s2) s2 >>= finish_update
  end.

(** ** [update_empty] *)

Definition update_empty (s : Sensor) (ux_calltime : Z) : Sensor :=
  let s1 := set_n_events (S (n_events s)) s in
  let s2 := set_unixtime (unixtime s1 ++ [Some ux_calltime]) s1 in
  let s3 := set_max_rssi (max_rssi s2 ++ [None]) s2 in
  set_rssi (pad_rows (n_events s3) (rssi s3)) s3.

(** ** Scenario of the design document *)

Definition topology_A : list location := [["ConnA"; "ConnB"]]%string.

Definition event_A (a : Z) : Event := mkEvent "projects/p/devices/tag" "ConnA" a 0.
Definition event_B (b : Z) : Event := mkEvent "projects/p/devices/tag" "ConnB" b 500.

Definition scenario_A (a b : Z) : outcome :=
  update_event_data
    (new_event_data (new_event_data (new_Sensor topology_A "tag") (event_A a))
       (event_B b))
    2000.

(** ** Reading the buffer *)

(** The buffered event of connector [c], if any, and the event of [c]
    that was handed to [new_event_data] last. *)
Definition buffered (c : string) (buffer : list Event) : option Event :=
  find (λ e, bool_decide (ccon_id e = c)) buffer.

Definition latest (c : string) (events : list Event) : option Event :=
  find (λ e, bool_decide (ccon_id e = c)) (reverse events).

Definition ingest_all (s : Sensor) (events : list Event) : Sensor :=
  foldl new_event_data s events.

(** ** States a sensor goes through *)

(** States reached from the constructor by calls that return. *)
Inductive reachable (locations : list location) (id : string) : Sensor → Prop :=
| reach_new : reachable locations id (new_Sensor locations id)
| reach_new_event_data s event :
    reachable locations id s → reachable locations id (new_event_data s event)
| reach_update_event_data s t s' :
    reachable locations id s → update_event_data s t = Done s' →
    reachable locations id s'
| reach_update_empty s t :
    reachable locations id s → reachable locations id (update_empty s t).

(** ** Reading the result *)

(** Python's [l[i]]: a negative index counts from the end. *)
Definition py_index {A} (l : list A) (i : Z) : option A :=
  if 0 <=? i then l !! Z.to_nat i
  else if - Z.of_nat (length l) <=? i then l !! Z.to_nat (Z.of_nat (length l) + i)
  else None.

(** [sensor.location_map[rr[k]]] of [Director.plot]: the location drawn
    for tick [k]; no location for a tick that holds [None]. *)
Definition tick_location (s : Sensor) (k : nat) : option nat :=
  match max_rssi s !! k with
  | Some (Some argmax) => py_index (location_map s) argmax
  | _ => None
  end.

(** ** [Director]: replay of the event history *)

(** [prm.streamtick], [prm.buffertime] and [args['timeout']], for runs
    in whole seconds with [--timeout] left to its default, a number;
    [Setup] below has the runs with sums that round and with
    [--timeout] given. *)
Record Params := mkParams {
  streamtick : Z;
  buffertime : Z;
  timeout : Z
}.

(** [os.path.basename]: what follows the last slash. *)
Fixpoint has_slash (path : string) : bool :=
  match path with
  | EmptyString => false
  | String c rest => Ascii.eqb c "/"%char || has_slash rest
  end.

Fixpoint basename (path : string) : string :=
  match path with
  | EmptyString => EmptyString
  | String c rest =>
      if has_slash rest then basename rest
      else if Ascii.eqb c "/"%char then rest
      else path
  end.

(** [Director.__new_event_data]: every sensor of the event's device is
    served the event. *)
Definition serve (event_data : Event) (sensor : Sensor) : Sensor :=
  if bool_decide (sensor_id sensor = basename (targetName event_data))
  then new_event_data sensor event_data
  else sensor.

Definition director_new_event_data (sensors : list Sensor) (event_data : Event)
  : list Sensor :=
  serve event_data <$> sensors.

(** "catch up with events that have occured": [pending] is
    [event_history[i:]], the events not served yet. *)
Fixpoint catch_up (unix_now : Z) (pending : list Event) (sensors : list Sensor)
  : list Event * list Sensor :=
  match pending with
  | [] => ([], sensors)
  | event :: rest =>
      if updateTime event <? unix_now
      then catch_up unix_now rest (director_new_event_data sensors event)
      else (pending, sensors)
  end.

(** The test that guards [update_event_data], and the one of the [elif]. *)
Definition settled (p : Params) (unix_now : Z) (sensor : Sensor) : bool :=
  buffering sensor && (0 <? length (event_buffer sensor))%nat
  && (unix_now - last_event sensor >? buffertime p).

Definition timed_out (p : Params) (unix_now : Z) (sensor : Sensor) : bool :=
  unix_now - last_event sensor >? timeout p.

Definition check_sensor (p : Params) (unix_now : Z) (sensor : Sensor) : outcome :=
  if settled p unix_now sensor then update_event_data sensor unix_now
  else if timed_out p unix_now sensor then Done (update_empty sensor unix_now)
  else Done sensor.

(** "check buffering status for each sensor"; an exception leaves the
    sensors after the raising one unvisited. *)
Inductive checked :=
| Checked (sensors : list Sensor)
| Failed (e : exn) (sensors : list Sensor).

Fixpoint check_sensors (p : Params) (unix_now : Z) (sensors : list Sensor) : checked :=
  match sensors with
  | [] => Checked []
  | sensor :: rest =>
      match check_sensor p unix_now sensor with
      | Raised e sensor' => Failed e (sensor' :: rest)
      | Done sensor' =>
          match check_sensors p unix_now rest with
          | Checked rest' => Checked (sensor' :: rest')
          | Failed e rest' => Failed e (sensor' :: rest')
          end
      end
  end.

(** The [while unix_now <= unix_end] loop. [fuel] bounds the number of
    turns; [Unfinished] is a loop cut short by it. *)
Inductive replay :=
| Finished (sensors : list Sensor)
| Aborted (e : exn) (sensors : list Sensor)
| Unfinished (unix_now : Z) (pending : list Event) (sensors : list Sensor).

Fixpoint simulate (p : Params) (unix_end : Z) (fuel : nat) (unix_now : Z)
    (pending : list Event) (sensors : list Sensor) : replay :=
  match fuel with
  | O => Unfinished unix_now pending sensors
  | S fuel =>
      if unix_now <=? unix_end then
        let caught := catch_up unix_now pending sensors in
        match check_sensors p unix_now caught.2 with
        | Checked sensors' =>
            simulate p unix_end fuel (unix_now + streamtick p) caught.1 sensors'
        | Failed e sensors' => Aborted e sensors'
        end
      else Finished sensors
  end.

(** [run_history] once the history was fetched and sorted in time;
    an empty history returns at once. *)
Definition unix_start (event_history : list Event) : Z :=
  default 0 (updateTime <$> head event_history).

Definition unix_end (event_history : list Event) : Z :=
  default 0 (updateTime <$> last event_history).

Definition run_history (p : Params) (event_history : list Event)
    (sensors : list Sensor) (fuel : nat) : replay :=
  match event_history with
  | [] => Finished sensors
  | _ :: _ =>
      simulate p (unix_end event_history) fuel (unix_start event_history)
        event_history sensors
  end.

Definition sensors_of (r : replay) : list Sensor :=
  match r with
  | Finished sensors | Aborted _ sensors | Unfinished _ _ sensors => sensors
  end.

Definition is_unfinished (r : replay) : bool :=
  match r with Unfinished _ _ _ => true | _ => false end.

(** [__spawn_devices]: one fresh sensor per labelled device. *)
Definition spawn_devices (locations : list location) (ids : list string) : list Sensor :=
  new_Sensor locations <$> ids.

(** The events served at the cursor [unix_now], and the ones left. *)
Definition due (unix_now : Z) (pending : list Event) : list Event :=
  filter (λ e, updateTime e < unix_now) pending.

Definition not_due (unix_now : Z) (pending : list Event) : list Event :=
  filter (λ e, ¬ updateTime e < unix_now) pending.

Definition in_time_order (events : list Event) : Prop :=
  Sorted (λ a b, updateTime a ≤ updateTime b) events.

(** A small replay. *)
Definition replay_params : Params := mkParams 1 2 30.

Definition replay_history : list Event :=
  [ mkEvent "projects/p/devices/tag" "ConnA" 50 0;
    mkEvent "projects/p/devices/tag" "ConnB" 40 1;
    mkEvent "projects/p/devices/other" "ConnA" 70 6;
    mkEvent "projects/p/devices/tag" "ConnA" 60 10 ]%string.

Definition replay_result : replay :=
  run_history replay_params replay_history (spawn_devices topology_A ["tag"%string]) 12.

(** * Part II: vocabulary of the properties *)

(** The predicates below describe states of a sensor; none of them is part
    of the program. *)

(** ** The event loop of [update_event_data] *)

(** The rows and the index dictionary agree: as many rows as connectors,
    every index inside the matrix, no row shared by two connectors. *)
Record indexed (s : Sensor) : Prop := mkIndexed {
  ix_size : size (ccons s) = length (rssi s);
  ix_range : ∀ c i, ccons s !! c = Some i → (i < length (rssi s))%nat;
  ix_inj : ∀ c1 c2 i, ccons s !! c1 = Some i → ccons s !! c2 = Some i → c1 = c2
}.

(** Fields [update_event_data] leaves alone until its last lines. *)
Definition frame (s s' : Sensor) : Prop :=
  sensor_id s' = sensor_id s ∧ unixtime s' = unixtime s ∧
  max_rssi s' = max_rssi s ∧ n_events s' = n_events s ∧
  last_event s' = last_event s ∧ buffering s' = buffering s ∧
  event_buffer s' = event_buffer s ∧
  location_map_unknown s' = location_map_unknown s.

(** State of [event]'s row after its turn: the sample was appended to
    [row], which for a connector met for the first time is all zeros. *)
Definition known_after (s : Sensor) (ix : nat) (row : list cell) (event : Event) : Sensor :=
  set_rssi (<[ix := row ++ [Some (signalStrength event)]]> (rssi s)) s.

Definition new_after (s : Sensor) (u : nat) (event : Event) : Sensor :=
  set_rssi
    (rssi s ++ [replicate (n_events s - 1) (Some 0) ++ [Some (signalStrength event)]])
    (set_location_map (location_map s ++ [u])
      (set_ccon_ids (ccon_ids s ++ [ccon_id event])
        (set_ccons (<[ccon_id event := length (rssi s)]> (ccons s)) s))).

(** Rows while the loop runs, [n] being the counter already incremented:
    a row not yet touched is one short, a touched one ends in a sample. *)
Definition row_ok (n : nat) (row : list cell) : Prop :=
  length row = (n - 1)%nat ∨ (length row = n ∧ ∃ v, last row = Some (Some v)).

Record committing (pending : list Event) (s : Sensor) : Prop := mkCommitting {
  cm_indexed : indexed s;
  cm_pos : (1 ≤ n_events s)%nat;
  cm_rows : Forall (row_ok (n_events s)) (rssi s);
  cm_pending : ∀ e i row, e ∈ pending → ccons s !! ccon_id e = Some i →
                 rssi s !! i = Some row → length row = (n_events s - 1)%nat;
  cm_nodup : NoDup (map ccon_id pending)
}.

(** What the turn of [event] does to its own row and to the others. *)
Definition placed (s s' : Sensor) (event : Event) : Prop :=
  ∃ i row, ccons s' !! ccon_id event = Some i ∧
    rssi s' !! i = Some (row ++ [Some (signalStrength event)]) ∧
    length row = (n_events s - 1)%nat ∧
    (ccons s !! ccon_id event = None →
       i = length (rssi s) ∧ row = replicate (n_events s - 1) (Some 0) ∧
       ∃ u, location_map_unknown s = Some u ∧
            location_map s' = location_map s ++ [u]).

Definition kept (s s' : Sensor) (c' : string) : Prop :=
  ccons s' !! c' = ccons s !! c' ∧
  ∀ i row, ccons s !! c' = Some i → rssi s !! i = Some row →
    rssi s' !! i = Some row.

Definition others_kept (s s' : Sensor) (c : string) : Prop :=
  ∀ c', c' ≠ c → kept s s' c'.

(** The row of a buffered event once the whole loop has run. *)
Definition committed (s s' : Sensor) (event : Event) : Prop :=
  ∃ i row, ccons s' !! ccon_id event = Some i ∧
    rssi s' !! i = Some (row ++ [Some (signalStrength event)]) ∧
    length row = (n_events s - 1)%nat ∧
    (ccons s !! ccon_id event = None →
       row = replicate (n_events s - 1) (Some 0)).

(** ** The maximum search *)

(** Rows that end in a number: what the search needs to go through. *)
Definition sampled (row : list cell) : Prop := ∃ v, last row = Some (Some v).

(** ** States between calls *)

Record wf (s : Sensor) : Prop := mkWf {
  wf_indexed : indexed s;
  wf_pos : (1 ≤ n_events s)%nat;
  wf_rows : Forall (λ row, length row = n_events s) (rssi s);
  wf_unixtime : length (unixtime s) = n_events s;
  wf_max_rssi : length (max_rssi s) = n_events s;
  wf_buffer : NoDup (map ccon_id (event_buffer s));
  wf_flag : buffering s = true ↔ event_buffer s ≠ []
}.

(** The state the event loop of [update_event_data] starts from. *)
Definition opened (s : Sensor) (ux_calltime : Z) : Sensor :=
  set_n_events (S (n_events s)) (set_unixtime (unixtime s ++ [Some ux_calltime]) s).

(** What a returning [update_event_data] has done. *)
Record flushed (s : Sensor) (t : Z) (s' : Sensor) : Prop := mkFlushed {
  fl_wf : wf s';
  fl_n_events : n_events s' = S (n_events s);
  fl_unixtime : unixtime s' = unixtime s ++ [Some t];
  fl_max_rssi : ∃ a, get_max_rssi (rssi s') = inr a ∧
                     max_rssi s' = max_rssi s ++ [Some a];
  fl_buffer : event_buffer s' = [];
  fl_buffering : buffering s' = false;
  fl_last_event : last_event s' = last_event s;
  fl_unknown : location_map_unknown s' = location_map_unknown s;
  fl_id : sensor_id s' = sensor_id s;
  fl_committed : ∀ e, e ∈ event_buffer s → committed (opened s t) s' e;
  fl_kept : ∀ c, c ∉ map ccon_id (event_buffer s) →
              ccons s' !! c = ccons s !! c ∧
              ∀ i row, ccons s !! c = Some i → rssi s !! i = Some row →
                rssi s' !! i = Some (row ++ [Some 0])
}.

(** ** Scenario A of the design document *)

(** What the design document expects of scenario A for the signal
    strengths [a] of ConnA and [b] of ConnB: one new tick at 2000, [a] and
    [b] appended to the rows of ConnA (row 0) and ConnB (row 1), ConnA as
    the maximum and its location 0 for the tick. *)
Definition scenario_A_expected (a b : Z) : Prop :=
  ∃ s', scenario_A a b = Done s' ∧
    n_events s' = 2%nat ∧ unixtime s' = [None; Some 2000] ∧
    ccons s' !! "ConnA"%string = Some 0%nat ∧
    ccons s' !! "ConnB"%string = Some 1%nat ∧
    rssi s' = [[None; Some a]; [None; Some b]] ∧
    max_rssi s' = [None; Some 0] ∧
    tick_location s' 1 = Some 0%nat.

(** ** Ties *)

(** Row [k] is the first row whose value just appended, [v], is the
    greatest of the tick. *)
Definition greatest_first_at (s' : Sensor) (k : nat) (v : Z) : Prop :=
  (∃ row, rssi s' !! k = Some row ∧ last row = Some (Some v)) ∧
  ∀ j row' w, rssi s' !! j = Some row' → last row' = Some (Some w) →
    w ≤ v ∧ ((j < k)%nat → w < v).

(** Another row holds the same value. *)
Definition tied_at (s' : Sensor) (k : nat) (v : Z) : Prop :=
  ∃ k' row', k ≠ k' ∧ rssi s' !! k' = Some row' ∧ last row' = Some (Some v).

(** The tie rule of the design document for the state a flush returns. *)
Definition tie_goes_to_earliest (s' : Sensor) : Prop :=
  ∀ k v, greatest_first_at s' k v → tied_at s' k v →
    last (max_rssi s') = Some (Some (Z.of_nat k)).

(** ** Times of the committed ticks *)

(** The claim of the design document, over all indices below [n_events]. *)
Definition times_increase (s : Sensor) : Prop :=
  ∀ i j, (i < j)%nat → (j < n_events s)%nat →
    ∃ a b, unixtime s !! i = Some (Some a) ∧ unixtime s !! j = Some (Some b) ∧ a < b.

(** [unixtime] is [None] followed by increasing times below [bound],
    and as long as [n_events]. *)
Definition tick_shape (bound : Z) (s : Sensor) : Prop :=
  ∃ ts, unixtime s = None :: (Some <$> ts) ∧
        StronglySorted Z.lt ts ∧ Forall (λ t, t < bound) ts ∧
        length (unixtime s) = n_events s.

Definition checked_sensors (c : checked) : list Sensor :=
  match c with Checked ss | Failed _ ss => ss end.

(** * Part III: runs on concrete inputs *)

Definition scenario_tie : outcome := scenario_A (-50) (-50).

Definition tie_before : Sensor :=
  Eval vm_compute in
    new_event_data (new_event_data (new_Sensor topology_A "tag") (event_A 50))
      (event_B 50).

Definition tie_after : Sensor :=
  Eval vm_compute in state_of (update_event_data tie_before 2000).

Definition negative_tie_after : Sensor :=
  Eval vm_compute in state_of scenario_tie.

Definition event_C : Event := mkEvent "projects/p/devices/tag" "ConnC" 30 2500.

(** The state after scenario A, then after ConnC was heard. *)
Definition after_A : Sensor := Eval vm_compute in state_of (scenario_A 50 40).

Definition heard_C : Sensor := Eval vm_compute in new_event_data after_A event_C.

Definition after_C : Sensor :=
  Eval vm_compute in state_of (update_event_data heard_C 5000).

Definition window_events : list Event := [event_A 50; event_B 40; event_A 45].

Definition heard_A : Sensor :=
  Eval vm_compute in new_event_data (new_Sensor topology_A "tag") (event_A 50).

(** A configuration whose last location has no connector yet. *)
Definition topology_trailing : list location := [["ConnA"]; []]%string.

Definition trailing_heard_C : Sensor :=
  Eval vm_compute in new_event_data (new_Sensor topology_trailing "tag") event_C.

Definition replay_sensors : list Sensor :=
  Eval vm_compute in spawn_devices topology_A ["tag"%string].

(** A configuration that lists ConnA under two locations, and a run in
    which the unconfigured ConnC is heard, then ConnA and ConnC together. *)
Definition topology_twice : list location := [["ConnA"; "ConnB"]; ["ConnA"]]%string.

Definition twice_after : Sensor :=
  Eval vm_compute in
    state_of
      (update_event_data
         (new_event_data
            (new_event_data
               (state_of
                  (update_event_data
                     (new_event_data (new_Sensor topology_twice "tag") event_C) 5000))
               (event_A 50))
            event_C)
         9000).

(** * Part III, continued: further models, vocabulary and runs *)

(** ** Further vocabulary *)

(** The value a flush appends to the row of connector [c]: the signal
    strength of its buffered event, or 0 when it has none. *)
Definition appended (c : string) (buffer : list Event) : Z :=
  match buffered c buffer with
  | Some e => signalStrength e
  | None => 0
  end.

(** The location ids of the rows of a configuration, location by
    location, [i] being the id of the first one. *)
Fixpoint location_ids (i : nat) (locations : list location) : list nat :=
  match locations with
  | [] => []
  | loc :: rest => replicate (length loc) i ++ location_ids (S i) rest
  end.

(** The row of the [j]-th connector of the [k]-th location. *)
Definition row_of (locations : list location) (k j : nat) : nat :=
  (length (concat (take k locations)) + j)%nat.

Definition unset_heard_C : Sensor :=
  Eval vm_compute in new_event_data (new_Sensor [[]; []] "tag") event_C.

(** The turns of one sensor at the cursors [nows], without any event
    served in between. *)
Definition silent_turns (p : Params) (nows : list Z) (s : Sensor) : Sensor :=
  foldl (λ s now, state_of (check_sensor p now s)) s nows.

Definition event_of_tag : Event := mkEvent "projects/p/devices/tag" "ConnA" 50 0.



(** A sensor between calls whose unknown location id is set. *)
Definition sound (s : Sensor) : Prop := wf s ∧ location_map_unknown s ≠ None.

(** ** [run_stream] and [listen]: the live mode *)

(** What runs under [self.lock], one critical section at a time: the
    listening thread serves an event, or the main thread, having read the
    clock, checks every sensor. A schedule is the order in which the two
    threads took the lock. *)
Inductive action :=
| Deliver (event_data : Event)
| Timer (now : Z).

Definition live_step (p : Params) (sensors : list Sensor) (a : action) : checked :=
  match a with
  | Deliver event_data => Checked (director_new_event_data sensors event_data)
  | Timer now => check_sensors p now sensors
  end.

Fixpoint live (p : Params) (schedule : list action) (sensors : list Sensor) : checked :=
  match schedule with
  | [] => Checked sensors
  | a :: rest =>
      match live_step p sensors a with
      | Checked sensors' => live p rest sensors'
      | Failed e sensors' => Failed e sensors'
      end
  end.

(** The clock values of a schedule, in order. *)
Definition clock_readings (schedule : list action) : list Z :=
  omap (λ a, match a with Timer now => Some now | Deliver _ => None end) schedule.

Definition live_schedule : list action :=
  [ Timer 3; Deliver (mkEvent "projects/p/devices/tag" "ConnA" 50 4);
    Deliver (mkEvent "projects/p/devices/tag" "ConnB" 40 5); Timer 6; Timer 9;
    Timer 40 ]%string.

Definition live_sensor : Sensor :=
  Eval vm_compute in
    default (new_Sensor [] "")
      (head (checked_sensors (live replay_params live_schedule
                           (spawn_devices topology_A ["tag"%string])))).

(** Scenario A with the negative values, before and after the flush. *)
Definition negative_before : Sensor :=
  Eval vm_compute in
    new_event_data (new_event_data (new_Sensor topology_A "tag") (event_A (-50)))
      (event_B (-60)).

Definition negative_after : Sensor :=
  Eval vm_compute in state_of (update_event_data negative_before 2000).

(** The live schedule that a replay amounts to: at each cursor the
    events before it are delivered, then the clock is read as the cursor. *)
Fixpoint replay_schedule (p : Params) (unix_end : Z) (fuel : nat) (unix_now : Z)
    (pending : list Event) : list action :=
  match fuel with
  | O => []
  | S fuel =>
      if unix_now <=? unix_end then
        (Deliver <$> due unix_now pending) ++
        Timer unix_now ::
        replay_schedule p unix_end fuel (unix_now + streamtick p)
          (not_due unix_now pending)
      else []
  end.

(** A replay read as the result of a run of checks. *)
Definition replay_as_checked (r : replay) : checked :=
  match r with
  | Finished sensors | Unfinished _ _ sensors => Checked sensors
  | Aborted e sensors => Failed e sensors
  end.

(** ** [Director.plot]: the spans filled per location *)

(** A filled span: the tick it starts at, the tick it ends at and the
    location whose colour it takes. *)
Definition span := (nat * nat * nat)%type.

(** [sensor.location_map[k]] for an entry [k] of [rr]: indexing with
    [None] is a [TypeError], outside the list an [IndexError]. *)
Definition location_at (lm : list nat) (k : option Z) : exn + nat :=
  match k with
  | None => inl TypeError
  | Some a =>
      match py_index lm a with
      | Some l => inr l
      | None => inl IndexError
      end
  end.

(** The condition of the last [elif], [or] evaluated from the left:
    [rr[i] == None or location_map[rr[i]] != location_map[rr[i-1]]
     or i == len(ux)-1]. *)
Definition span_ends (lm : list nat) (rr : list (option Z)) (n i : nat)
    (ri : option Z) : exn + bool :=
  match ri with
  | None => inr true
  | Some _ =>
      match location_at lm ri with
      | inl e => inl e
      | inr li =>
          match rr !! (i - 1)%nat with
          | None => inl IndexError
          | Some rp =>
              match location_at lm rp with
              | inl e => inl e
              | inr lp => inr (negb (li =? lp)%nat || (i =? n - 1)%nat)
              end
          end
      end
  end.

(** One turn of [for i in range(len(ux))]; the state is [ix] and the
    spans filled so far. *)
Definition plot_turn (lm : list nat) (rr : list (option Z)) (n : nat)
    (st : nat * list span) (i : nat) : exn + (nat * list span) :=
  if (i =? st.1)%nat then inr st
  else
    match rr !! st.1 with
    | None => inl IndexError
    | Some None => inr (i, st.2)
    | Some (Some _) =>
        match rr !! i with
        | None => inl IndexError
        | Some ri =>
            match span_ends lm rr n i ri with
            | inl e => inl e
            | inr false => inr st
            | inr true =>
                match rr !! (i - 1)%nat with
                | None => inl IndexError
                | Some rp =>
                    match location_at lm rp with
                    | inl e => inl e
                    | inr lp => inr (i, st.2 ++ [(st.1, i, lp)])
                    end
                end
            end
        end
    end.

Fixpoint plot_loop (lm : list nat) (rr : list (option Z)) (n : nat)
    (turns : list nat) (st : nat * list span) : exn + (nat * list span) :=
  match turns with
  | [] => inr st
  | i :: rest =>
      match plot_turn lm rr n st i with
      | inl e => inl e
      | inr st' => plot_loop lm rr n rest st'
      end
  end.

(** The spans [plot] fills for one sensor. *)
Definition filled_spans (s : Sensor) : exn + list span :=
  match plot_loop (location_map s) (max_rssi s) (length (unixtime s))
          (seq 0 (length (unixtime s))) (0%nat, []) with
  | inl e => inl e
  | inr st => inr st.2
  end.

(** Tick [k] holds a row of location [l]. *)
Definition located (lm : list nat) (rr : list (option Z)) (k l : nat) : Prop :=
  ∃ a, rr !! k = Some (Some a) ∧ py_index lm a = Some l.

(** A span that lies inside the ticks and covers only ticks of its
    location. *)
Definition span_ok (s : Sensor) (sp : span) : Prop :=
  (sp.1.1 < sp.1.2)%nat ∧ (sp.1.2 < n_events s)%nat ∧
  ∀ k, (sp.1.1 ≤ k)%nat → (k < sp.1.2)%nat → tick_location s k = Some sp.2.

(** Between [ix] and the turn [i], every tick has the location of the
    tick before it. *)
Definition chained (lm : list nat) (rr : list (option Z)) (ix i : nat) : Prop :=
  ∀ k, (ix < k)%nat → (k < i)%nat →
    ∃ l, located lm rr k l ∧ located lm rr (k - 1) l.

Definition span_good (lm : list nat) (rr : list (option Z)) (n : nat) (sp : span) : Prop :=
  (sp.1.1 < sp.1.2)%nat ∧ (sp.1.2 < n)%nat ∧
  ∀ k, (sp.1.1 ≤ k)%nat → (k < sp.1.2)%nat → located lm rr k sp.2.

(** The entries of [max_rssi] stay inside [location_map]. *)
Definition max_rssi_in_range (s : Sensor) : Prop :=
  Forall (λ k, ∀ a, k = Some a →
            -1 ≤ a < Z.of_nat (length (location_map s)) ∧
            (1 ≤ length (location_map s))%nat) (max_rssi s).

Definition plotted_sensor : Sensor :=
  Eval vm_compute in
    update_empty
      (state_of (update_event_data
         (new_event_data (update_empty after_C 6000) (event_A 20)) 7000)) 8000.

(** ** The properties of the design document, as it words them *)


(** "The row registered for the connector of [event] at the flush that
    takes [s] to [s'] holds one zero for every tick of [s], then the
    sample." *)
Definition backfilled (s s' : Sensor) (event : Event) : Prop :=
  ∃ i, ccons s' !! ccon_id event = Some i ∧
       rssi s' !! i =
         Some (replicate (n_events s) (Some 0) ++ [Some (signalStrength event)]).

(** The order of the design document, from index 1 on. *)
Definition times_increase_from_1 (s : Sensor) : Prop :=
  ∀ i j, (1 ≤ i)%nat → (i < j)%nat → (j < n_events s)%nat →
    ∃ a b, unixtime s !! i = Some (Some a) ∧ unixtime s !! j = Some (Some b) ∧ a < b.

(** ** Sequences of calls *)

(** The three methods a caller has, with their arguments. *)
Inductive call :=
| Ingest (event : Event)
| Flush (ux_calltime : Z)
| FlushEmpty (ux_calltime : Z).

Definition do_call (c : call) (s : Sensor) : outcome :=
  match c with
  | Ingest event => Done (new_event_data s event)
  | Flush ux_calltime => update_event_data s ux_calltime
  | FlushEmpty ux_calltime => Done (update_empty s ux_calltime)
  end.

(** Calls made one after the other; an exception ends the sequence. *)
Fixpoint do_calls (calls : list call) (s : Sensor) : outcome :=
  match calls with
  | [] => Done s
  | c :: rest => do_call c s >>= do_calls rest
  end.

(** The call times of the flushes of a sequence, in call order. *)
Definition call_times (calls : list call) : list Z :=
  omap (λ c, match c with
             | Flush t | FlushEmpty t => Some t
             | Ingest _ => None
             end) calls.

(** Calls at increasing times, and calls at times that go back. *)
Definition calls_in_order : list call :=
  [ Ingest (event_A 50); Ingest (event_B 40); Flush 2000;
    Ingest event_C; Flush 5000; FlushEmpty 9000 ].

Definition calls_out_of_order : list call :=
  [ Ingest (event_A 50); Flush 5; FlushEmpty 3 ].

Definition in_order_after : Sensor :=
  Eval vm_compute in state_of (do_calls calls_in_order (new_Sensor topology_A "tag")).

Definition out_of_order_after : Sensor :=
  Eval vm_compute in state_of (do_calls calls_out_of_order (new_Sensor topology_A "tag")).

(** The run on [topology_twice], state by state. *)
Definition twice_heard_C : Sensor :=
  Eval vm_compute in new_event_data (new_Sensor topology_twice "tag") event_C.

Definition twice_after_C : Sensor :=
  Eval vm_compute in state_of (update_event_data twice_heard_C 5000).


(** ** The director with the arithmetic and the arguments of the source *)

(** [args['timeout']]: [--timeout] is declared without [type=], so the
    value is the number [60*30] of the default when the option is absent
    and the text of the command line when it is given. *)
Inductive timeout_arg :=
| timeout_number (seconds : Z)
| timeout_text (text : string).

(** What a run of the director depends on besides the events: the sum
    and the difference of two floats, each float named by an integer as
    laid out at the head of the file, [prm.streamtick], [prm.buffertime]
    and [args['timeout']]. *)
Record Setup := mkSetup {
  float_add : Z → Z → Z;
  float_sub : Z → Z → Z;
  prm_streamtick : Z;
  prm_buffertime : Z;
  args_timeout : timeout_arg
}.

(** The runs of [Params]: whole numbers, added and subtracted without
    rounding, and the timeout a number. *)
Definition exact (p : Params) : Setup :=
  mkSetup Z.add Z.sub (streamtick p) (buffertime p) (timeout_number (timeout p)).

Definition settled_in (c : Setup) (unix_now : Z) (sensor : Sensor) : bool :=
  buffering sensor && (0 <? length (event_buffer sensor))%nat
  && (float_sub c unix_now (last_event sensor) >? prm_buffertime c).

(** The [if] and the [elif] of the check; [>] between a float and a
    [str] is a [TypeError]. *)
Definition check_sensor_in (c : Setup) (unix_now : Z) (sensor : Sensor) : outcome :=
  if settled_in c unix_now sensor then update_event_data sensor unix_now
  else
    match args_timeout c with
    | timeout_number seconds =>
        if float_sub c unix_now (last_event sensor) >? seconds
        then Done (update_empty sensor unix_now)
        else Done sensor
    | timeout_text _ => Raised TypeError sensor
    end.

Fixpoint check_sensors_in (c : Setup) (unix_now : Z) (sensors : list Sensor)
  : checked :=
  match sensors with
  | [] => Checked []
  | sensor :: rest =>
      match check_sensor_in c unix_now sensor with
      | Raised e sensor' => Failed e (sensor' :: rest)
      | Done sensor' =>
          match check_sensors_in c unix_now rest with
          | Checked rest' => Checked (sensor' :: rest')
          | Failed e rest' => Failed e (sensor' :: rest')
          end
      end
  end.

(** The [while unix_now <= unix_end] loop, [unix_now += unix_step] being
    the sum of two floats. *)
Fixpoint simulate_in (c : Setup) (unix_end : Z) (fuel : nat) (unix_now : Z)
    (pending : list Event) (sensors : list Sensor) : replay :=
  match fuel with
  | O => Unfinished unix_now pending sensors
  | S fuel =>
      if unix_now <=? unix_end then
        let caught := catch_up unix_now pending sensors in
        match check_sensors_in c unix_now caught.2 with
        | Checked sensors' =>
            simulate_in c unix_end fuel (float_add c unix_now (prm_streamtick c))
              caught.1 sensors'
        | Failed e sensors' => Aborted e sensors'
        end
      else Finished sensors
  end.

(** [unix_start = event_history_unixtime[0]] and
    [unix_end = event_history_unixtime[-1]] of a history that is not empty. *)
Definition run_history_in (c : Setup) (event_history : list Event)
    (sensors : list Sensor) (fuel : nat) : replay :=
  match event_history with
  | [] => Finished sensors
  | first :: rest =>
      simulate_in c
        (updateTime (List.last rest first)) fuel (updateTime first)
        event_history sensors
  end.

Definition live_step_in (c : Setup) (sensors : list Sensor) (a : action) : checked :=
  match a with
  | Deliver event_data => Checked (director_new_event_data sensors event_data)
  | Timer now => check_sensors_in c now sensors
  end.

Fixpoint live_in (c : Setup) (schedule : list action) (sensors : list Sensor)
  : checked :=
  match schedule with
  | [] => Checked sensors
  | a :: rest =>
      match live_step_in c sensors a with
      | Checked sensors' => live_in c rest sensors'
      | Failed e sensors' => Failed e sensors'
      end
  end.

(** The values the cursor takes while the loop runs, exceptions apart. *)
Fixpoint cursors (c : Setup) (unix_end : Z) (fuel : nat) (unix_now : Z) : list Z :=
  match fuel with
  | O => []
  | S fuel =>
      if unix_now <=? unix_end
      then unix_now :: cursors c unix_end fuel (float_add c unix_now (prm_streamtick c))
      else []
  end.


(** Adding the step gives a later time, for the times from [lo] to [hi]. *)
Definition advancing (c : Setup) (lo hi : Z) : Prop :=
  ∀ unix_now, lo ≤ unix_now → unix_now ≤ hi →
    unix_now < float_add c unix_now (prm_streamtick c).


(** The small replay a hundred seconds later. *)
Definition later_history : list Event :=
  [ mkEvent "projects/p/devices/tag" "ConnA" 50 100;
    mkEvent "projects/p/devices/tag" "ConnB" 40 101;
    mkEvent "projects/p/devices/other" "ConnA" 70 106;
    mkEvent "projects/p/devices/tag" "ConnA" 60 110 ]%string.

Definition later_sensor : Sensor :=
  Eval vm_compute in
    default (new_Sensor [] "")
      (head (sensors_of (run_history_in (exact replay_params) later_history
                           (spawn_devices topology_A ["tag"%string]) 12))).

(** The small replay in the general model; the same with a step of 0;
    and floats that lie 8 apart, where a step of 3 is rounded away. *)
Definition steady : Setup := exact replay_params.


Definition coarse : Setup :=
  mkSetup (λ a b, 8 * ((a + b + 4) / 8)) (λ a b, 8 * ((a - b + 4) / 8))
    3 2 (timeout_number 30).

(** [--timeout 1800] given on the command line. *)
Definition timeout_given : Setup :=
  mkSetup Z.add Z.sub 1 2 (timeout_text "1800").

(** ** [listen] *)

(** How one pass through the [try] block ends: the stream ends, or one of
    the three exceptions that are caught is raised. [BadPackage] is the
    [KeyError] of a package without ['result'] or ['event']: the
    assignment to [event_data] does not take place. *)
Inductive ending := StreamEnded | ConnectionLost | ChunkedEncoding | BadPackage.

(** One pass: the events served before it ended. *)
Record attempt := mkAttempt {
  served : list Event;
  ended : ending
}.

Definition n_reconnects : nat := 5.

(** The local variable [event_data] after a pass: the last event that
    was assigned to it, in this pass or in an earlier one; [None] while
    it is unbound. *)
Definition assigned (event_data : option Event) (a : attempt) : option Event :=
  match last (served a) with
  | Some event => Some event
  | None => event_data
  end.

(** How [listen] is left: the network offers no further pass; the
    [while] condition fails; or the handler of [KeyError] prints
    [event_data] while it is unbound, and the [UnboundLocalError] leaves
    the function. *)
Inductive listened :=
| NoMorePasses (nth_reconnect : nat) (sensors : list Sensor)
| GaveUp (nth_reconnect : nat) (attempts : list attempt) (sensors : list Sensor)
| UnboundLocalError (attempts : list attempt) (sensors : list Sensor).

(** [while nth_reconnect < n_reconnects], over the passes the network
    allows: [nth_reconnect] is set to 0 on entering [try], then counted
    up by the handlers of the two connection errors. *)
Fixpoint listen (nth_reconnect : nat) (event_data : option Event)
    (attempts : list attempt) (sensors : list Sensor) : listened :=
  match attempts with
  | [] => NoMorePasses nth_reconnect sensors
  | a :: rest =>
      if (nth_reconnect <? n_reconnects)%nat then
        let nth_reconnect := 0%nat in
        let sensors := foldl director_new_event_data sensors (served a) in
        let event_data := assigned event_data a in
        match ended a with
        | StreamEnded => listen nth_reconnect event_data rest sensors
        | ConnectionLost | ChunkedEncoding =>
            listen (nth_reconnect + 1) event_data rest sensors
        | BadPackage =>
            match event_data with
            | Some _ => listen nth_reconnect event_data rest sensors
            | None => UnboundLocalError rest sensors
            end
        end
      else GaveUp nth_reconnect attempts sensors
  end.

Definition flaky_network : list attempt :=
  [ mkAttempt [] ConnectionLost; mkAttempt [] ConnectionLost;
    mkAttempt [event_of_tag] ChunkedEncoding; mkAttempt [] BadPackage;
    mkAttempt [] ConnectionLost; mkAttempt [] ConnectionLost;
    mkAttempt [] ConnectionLost; mkAttempt [event_of_tag] StreamEnded ].

Definition bad_first_package : list attempt :=
  [ mkAttempt [] ConnectionLost; mkAttempt [] BadPackage;
    mkAttempt [event_of_tag] StreamEnded ].

(** * Part IV: proofs *)

(** Projections of updated records, and nothing else, are computed by
    [fields]. *)
Ltac fields :=
  cbn [sensor_id unixtime rssi ccons ccon_ids max_rssi n_events last_event
       buffering event_buffer location_map location_map_unknown
       set_unixtime set_rssi set_ccons set_ccon_ids set_max_rssi set_n_events
       set_last_event set_buffering set_event_buffer set_location_map] in *.

(** ** Properties of the buffer *)

Section Buffer.

Implicit Types (event e : Event) (buffer : list Event) (c : string).

Lemma same_ccon_true a b : same_ccon a b = true ↔ ccon_id a = ccon_id b.
Proof. unfold same_ccon. apply bool_decide_eq_true. Qed.

Lemma overwrite_ids event buffer :
  map ccon_id (overwrite event buffer) = map ccon_id buffer.
Proof.
  induction buffer as [|e buffer IH]; simpl; [done|].
  rewrite IH. f_equal.
  destruct (same_ccon e event) eqn:E; [|done].
  symmetry. by apply same_ccon_true.
Qed.

Lemma exists_in_ids event buffer :
  exists_in event buffer = true ↔ ccon_id event ∈ map ccon_id buffer.
Proof.
  unfold exists_in. rewrite existsb_exists, list_elem_of_fmap.
  split.
  - intros (e & Hin & He). exists e. apply same_ccon_true in He.
    split; [done|]. by apply list_elem_of_In.
  - intros (e & He & Hin). exists e. split; [by apply list_elem_of_In|].
    by apply same_ccon_true.
Qed.

Lemma buffered_overwrite c event buffer :
  buffered c (overwrite event buffer) =
    if decide (ccon_id event = c)
    then (if exists_in event buffer then Some event else None)
    else buffered c buffer.
Proof.
  unfold buffered, exists_in.
  induction buffer as [|e buffer IH]; simpl.
  - by destruct (decide _).
  - destruct (same_ccon e event) eqn:E; simpl; rewrite IH.
    + apply same_ccon_true in E.
      destruct (decide (ccon_id event = c)) as [Heq|Hne].
      * by rewrite bool_decide_eq_true_2.
      * rewrite !bool_decide_eq_false_2 by congruence. done.
    + assert (ccon_id e ≠ ccon_id event) as Hne.
      { intros Heq. apply same_ccon_true in Heq. congruence. }
      destruct (decide (ccon_id event = c)) as [Heq|Hc].
      * rewrite bool_decide_eq_false_2 by congruence. done.
      * done.
Qed.

Lemma buffered_app c buffer event :
  buffered c (buffer ++ [event]) =
    match buffered c buffer with
    | Some e => Some e
    | None => if decide (ccon_id event = c) then Some event else None
    end.
Proof.
  unfold buffered. induction buffer as [|e buffer IH]; simpl.
  - destruct (decide _) as [Heq|Hne].
    + by rewrite bool_decide_eq_true_2.
    + by rewrite bool_decide_eq_false_2.
  - by destruct (bool_decide (ccon_id e = c)).
Qed.

Lemma buffered_None c buffer :
  c ∉ map ccon_id buffer → buffered c buffer = None.
Proof.
  unfold buffered. induction buffer as [|e buffer IH]; simpl; [done|].
  intros Hnin. apply not_elem_of_cons in Hnin as [Hne Hnin].
  rewrite bool_decide_eq_false_2 by done. by apply IH.
Qed.

(** What one call of [new_event_data] does to the buffer. *)
Lemma new_event_data_ids s event :
  map ccon_id (event_buffer (new_event_data s event)) =
    if exists_in event (event_buffer s) then map ccon_id (event_buffer s)
    else map ccon_id (event_buffer s) ++ [ccon_id event].
Proof.
  simpl. destruct (exists_in event (event_buffer s)).
  - apply overwrite_ids.
  - by rewrite map_app, overwrite_ids.
Qed.

Lemma new_event_data_NoDup s event :
  NoDup (map ccon_id (event_buffer s)) →
  NoDup (map ccon_id (event_buffer (new_event_data s event))).
Proof.
  intros Hnd. rewrite new_event_data_ids.
  destruct (exists_in event (event_buffer s)) eqn:E; [done|].
  apply NoDup_app. split_and!; [done| |apply NoDup_singleton].
  intros c Hc Hc'. apply list_elem_of_singleton in Hc'. subst c.
  apply exists_in_ids in Hc. congruence.
Qed.

Lemma new_event_data_buffered s event c :
  buffered c (event_buffer (new_event_data s event)) =
    if decide (ccon_id event = c) then Some event
    else buffered c (event_buffer s).
Proof.
  simpl. destruct (exists_in event (event_buffer s)) eqn:E.
  - rewrite buffered_overwrite, E. done.
  - rewrite buffered_app, buffered_overwrite, E.
    destruct (decide (ccon_id event = c)); [done|].
    by destruct (buffered c (event_buffer s)).
Qed.

Lemma new_event_data_nonempty s event :
  event_buffer (new_event_data s event) ≠ [].
Proof.
  simpl. destruct (exists_in event (event_buffer s)) eqn:E.
  - destruct (event_buffer s); [done|]. simpl. done.
  - intros H. by apply app_eq_nil in H as [_ ?].
Qed.

Lemma ingest_all_snoc s events event :
  ingest_all s (events ++ [event]) = new_event_data (ingest_all s events) event.
Proof. unfold ingest_all. by rewrite foldl_snoc. Qed.

Lemma latest_snoc c events event :
  latest c (events ++ [event]) =
    if decide (ccon_id event = c) then Some event else latest c events.
Proof.
  unfold latest. rewrite reverse_snoc. simpl.
  destruct (decide _) as [Heq|Hne].
  - by rewrite bool_decide_eq_true_2.
  - by rewrite bool_decide_eq_false_2.
Qed.

Lemma ingest_all_NoDup s events :
  NoDup (map ccon_id (event_buffer s)) →
  NoDup (map ccon_id (event_buffer (ingest_all s events))).
Proof.
  intros Hnd. induction events as [|event events IH] using rev_ind; [done|].
  rewrite ingest_all_snoc. by apply new_event_data_NoDup.
Qed.

Lemma ingest_all_buffered s events c :
  buffered c (event_buffer (ingest_all s events)) =
    match latest c events with
    | Some e => Some e
    | None => buffered c (event_buffer s)
    end.
Proof.
  induction events as [|event events IH] using rev_ind; [done|].
  rewrite ingest_all_snoc, new_event_data_buffered, latest_snoc.
  by destruct (decide _).
Qed.

(** With one entry per connector at most, the entries of [c] are the
    buffered event of [c] and nothing else. *)
Lemma filter_buffered c buffer :
  NoDup (map ccon_id buffer) →
  filter (λ e, ccon_id e = c) buffer =
    match buffered c buffer with Some e => [e] | None => [] end.
Proof.
  unfold buffered. induction buffer as [|e buffer IH]; simpl; [done|].
  intros Hnd. apply NoDup_cons in Hnd as [Hnin Hnd].
  rewrite filter_cons. destruct (decide (ccon_id e = c)) as [Heq|Hne].
  - rewrite bool_decide_eq_true_2 by done. f_equal.
    rewrite IH by done. subst c.
    fold (buffered (ccon_id e) buffer). by rewrite buffered_None.
  - rewrite bool_decide_eq_false_2 by done. by apply IH.
Qed.

End Buffer.

(** ** The event loop of [update_event_data] *)

Section Commit.

Implicit Types (s : Sensor) (e event : Event) (row : list cell).

Lemma frame_refl s : frame s s.
Proof. by repeat split. Qed.

Lemma frame_trans s1 s2 s3 : frame s1 s2 → frame s2 s3 → frame s1 s3.
Proof. unfold frame. intros H1 H2. destruct_and!. split_and!; congruence. Qed.

Lemma commit_event_known s event ix row :
  ccons s !! ccon_id event = Some ix → rssi s !! ix = Some row →
  commit_event s event = Done (known_after s ix row event).
Proof.
  intros Hix Hrow. unfold commit_event, append_rssi. rewrite Hix.
  cbn [bind]. by rewrite Hix, Hrow.
Qed.

Lemma commit_event_new s event u :
  ccons s !! ccon_id event = None → size (ccons s) = length (rssi s) →
  location_map_unknown s = Some u →
  commit_event s event = Done (new_after s u event).
Proof.
  intros Hnew Hsize Hu. unfold commit_event, register_ccon, append_rssi.
  rewrite Hnew. fields. rewrite Hu. cbn [bind]. fields.
  rewrite lookup_insert_eq, Hsize.
  rewrite lookup_app_r, Nat.sub_diag by lia. cbn [lookup list_lookup].
  unfold new_after, set_rssi, set_location_map, set_ccon_ids, set_ccons.
  fields. do 2 f_equal.
  rewrite insert_app_r_alt, Nat.sub_diag by lia. done.
Qed.

Lemma commit_event_unset s event :
  ccons s !! ccon_id event = None → location_map_unknown s = None →
  ∃ s', commit_event s event = Raised AttributeError s'.
Proof.
  intros Hnew Hu. unfold commit_event, register_ccon.
  rewrite Hnew. fields. rewrite Hu. cbn [bind]. eauto.
Qed.

Lemma kept_trans s1 s2 s3 c : kept s1 s2 c → kept s2 s3 c → kept s1 s3 c.
Proof.
  intros [H1 H1'] [H2 H2']. split; [congruence|].
  intros i row Hi Hrow. apply H2'; [congruence|]. by apply H1'.
Qed.

Lemma known_after_committing s event rest ix row :
  committing (event :: rest) s →
  ccons s !! ccon_id event = Some ix → rssi s !! ix = Some row →
  committing rest (known_after s ix row event) ∧
  placed s (known_after s ix row event) event ∧
  others_kept s (known_after s ix row event) (ccon_id event).
Proof.
  intros [[Hsz Hrg Hinj] Hpos Hrows Hpend Hnd] Hix Hrow.
  assert (length row = (n_events s - 1)%nat) as Hlen.
  { eapply Hpend; [apply list_elem_of_here|done..]. }
  assert (ix < length (rssi s))%nat as Hlt by (by eapply Hrg).
  apply NoDup_cons in Hnd as [Hnin Hnd].
  split_and!.
  - split; simpl; [split; simpl| | | |]; try done.
    + by rewrite length_insert.
    + intros c i Hc. rewrite length_insert. by eapply Hrg.
    + apply Forall_insert; [done|]. right. split.
      * rewrite length_app. simpl. lia.
      * eexists. apply last_snoc.
    + intros e i row' He Hi Hrow'.
      destruct (decide (i = ix)) as [->|Hne].
      * exfalso. apply Hnin. rewrite (Hinj _ _ _ Hix Hi).
        apply list_elem_of_fmap. by exists e.
      * rewrite list_lookup_insert_ne in Hrow' by done.
        eapply Hpend; [by apply list_elem_of_further|done..].
  - exists ix, row. simpl. split_and!; [done| |done|congruence].
    by apply list_lookup_insert_eq.
  - intros c' Hne. split; [done|]. intros i row' Hi Hrow'. simpl.
    rewrite list_lookup_insert_ne; [done|].
    intros <-. apply Hne. by eapply Hinj.
Qed.

Lemma new_after_committing s event rest u :
  committing (event :: rest) s →
  ccons s !! ccon_id event = None → location_map_unknown s = Some u →
  committing rest (new_after s u event) ∧
  placed s (new_after s u event) event ∧
  others_kept s (new_after s u event) (ccon_id event).
Proof.
  intros [[Hsz Hrg Hinj] Hpos Hrows Hpend Hnd] Hnew Hu.
  apply NoDup_cons in Hnd as [Hnin Hnd].
  split_and!.
  - split; simpl; [split; simpl| | | |]; try done.
    + rewrite map_size_insert_None, length_app by done. simpl. lia.
    + intros c i Hc. rewrite length_app. simpl.
      apply lookup_insert_Some in Hc as [[_ <-]|[_ Hc]]; [lia|].
      apply Hrg in Hc. lia.
    + intros c1 c2 i H1 H2.
      apply lookup_insert_Some in H1 as [[<- <-]|[Hn1 H1]];
        apply lookup_insert_Some in H2 as [[<- Hi]|[Hn2 H2]]; try done.
      * apply Hrg in H2. lia.
      * apply Hrg in H1. lia.
      * by eapply Hinj.
    + apply Forall_app. split; [done|]. apply Forall_singleton. right. split.
      * rewrite length_app, length_replicate. simpl. lia.
      * eexists. apply last_snoc.
    + intros e i row' He Hi Hrow'.
      assert (ccon_id e ≠ ccon_id event) as Hne.
      { intros Heq. apply Hnin. rewrite <- Heq. apply list_elem_of_fmap. by exists e. }
      rewrite lookup_insert_ne in Hi by done.
      rewrite lookup_app_l in Hrow' by (by eapply Hrg).
      eapply Hpend; [by apply list_elem_of_further|done..].
  - exists (length (rssi s)), (replicate (n_events s - 1) (Some 0)). simpl.
    split_and!.
    + apply lookup_insert_eq.
    + rewrite lookup_app_r, Nat.sub_diag by lia. done.
    + apply length_replicate.
    + intros _. split_and!; [done..|]. by exists u.
  - intros c' Hne. split; simpl.
    + by rewrite lookup_insert_ne.
    + intros i row' Hi Hrow'. rewrite lookup_app_l; [done|]. by eapply Hrg.
Qed.

Lemma known_after_frame s ix row event : frame s (known_after s ix row event).
Proof. by repeat split. Qed.

Lemma new_after_frame s u event : frame s (new_after s u event).
Proof. by repeat split. Qed.

(** One turn of the loop, when it returns. *)
Lemma commit_event_Done s event rest s' :
  committing (event :: rest) s → commit_event s event = Done s' →
  committing rest s' ∧ frame s s' ∧ placed s s' event ∧
  others_kept s s' (ccon_id event).
Proof.
  intros Hcm Hdone.
  destruct (ccons s !! ccon_id event) as [ix|] eqn:Hix.
  - destruct (rssi s !! ix) as [row|] eqn:Hrow.
    + rewrite (commit_event_known _ _ _ _ Hix Hrow) in Hdone.
      injection Hdone as <-.
      destruct (known_after_committing _ _ _ _ _ Hcm Hix Hrow) as (?&?&?).
      split_and!; [done|apply known_after_frame|done..].
    + apply lookup_ge_None in Hrow.
      apply (ix_range _ (cm_indexed _ _ Hcm)) in Hix. lia.
  - destruct (location_map_unknown s) as [u|] eqn:Hu.
    + rewrite (commit_event_new _ _ u Hix (ix_size _ (cm_indexed _ _ Hcm)) Hu) in Hdone.
      injection Hdone as <-.
      destruct (new_after_committing _ _ _ _ Hcm Hix Hu) as (?&?&?).
      split_and!; [done|apply new_after_frame|done..].
    + destruct (commit_event_unset _ _ Hix Hu) as [s'' Hr]. congruence.
Qed.

(** One turn of the loop returns unless an unknown connector meets an
    unset [location_map_unknown]. *)
Lemma commit_event_returns s event rest :
  committing (event :: rest) s →
  (ccons s !! ccon_id event = None → location_map_unknown s ≠ None) →
  ∃ s', commit_event s event = Done s'.
Proof.
  intros Hcm Hreg.
  destruct (ccons s !! ccon_id event) as [ix|] eqn:Hix.
  - destruct (rssi s !! ix) as [row|] eqn:Hrow.
    + eexists. by apply commit_event_known.
    + apply lookup_ge_None in Hrow.
      apply (ix_range _ (cm_indexed _ _ Hcm)) in Hix. lia.
  - destruct (location_map_unknown s) as [u|] eqn:Hu.
    + eexists. apply commit_event_new; [done| |done].
      apply (ix_size _ (cm_indexed _ _ Hcm)).
    + by destruct Hreg.
Qed.

Lemma bind_Done o k s' :
  o >>= k = Done s' → ∃ s1, o = Done s1 ∧ k s1 = Done s'.
Proof. destruct o as [s1|e s1]; simpl; [eauto|done]. Qed.

Lemma commit_events_kept events : ∀ s s' c,
  committing events s → commit_events events s = Done s' →
  c ∉ map ccon_id events → kept s s' c.
Proof.
  induction events as [|event rest IH]; intros s s' c Hcm Hdone Hc.
  - injection Hdone as <-. by split.
  - simpl in Hdone. apply bind_Done in Hdone as (s1 & Hstep & Hrest).
    apply not_elem_of_cons in Hc as [Hne Hc].
    destruct (commit_event_Done _ _ _ _ Hcm Hstep) as (Hcm1 & _ & _ & Hoth).
    eapply kept_trans; [by apply Hoth|]. by eapply IH.
Qed.

Lemma commit_events_Done events : ∀ s s',
  committing events s → commit_events events s = Done s' →
  committing [] s' ∧ frame s s' ∧ ∀ e, e ∈ events → committed s s' e.
Proof.
  induction events as [|event rest IH]; intros s s' Hcm Hdone.
  - injection Hdone as <-. split_and!; [done|apply frame_refl|].
    intros e He. by apply elem_of_nil in He.
  - simpl in Hdone. apply bind_Done in Hdone as (s1 & Hstep & Hrest).
    destruct (commit_event_Done _ _ _ _ Hcm Hstep) as (Hcm1 & Hfr1 & Hpl & Hoth).
    destruct (IH _ _ Hcm1 Hrest) as (Hcm' & Hfr' & Hall).
    assert (n_events s1 = n_events s) as Hn by apply Hfr1.
    split_and!; [done|by eapply frame_trans|].
    intros e He. apply elem_of_cons in He as [->|He].
    + destruct Hpl as (i & row & Hi & Hrow & Hlen & Hnew).
      assert (ccon_id event ∉ map ccon_id rest) as Hnin.
      { by apply (NoDup_cons_1_1 _ _ (cm_nodup _ _ Hcm)). }
      destruct (commit_events_kept _ _ _ _ Hcm1 Hrest Hnin) as [Hk1 Hk2].
      exists i, row. split_and!; [congruence|by eapply Hk2|done|].
      intros Hc. by apply Hnew.
    + destruct (Hall e He) as (i & row & Hi & Hrow & Hlen & Hnew).
      exists i, row. rewrite Hn in Hlen, Hnew. split_and!; [done..|].
      intros Hc. apply Hnew.
      assert (ccon_id e ≠ ccon_id event) as Hne.
      { intros Heq. apply (NoDup_cons_1_1 _ _ (cm_nodup _ _ Hcm)).
        rewrite <- Heq. apply list_elem_of_fmap. by exists e. }
      destruct (Hoth _ Hne) as [-> _]. done.
Qed.

Lemma commit_events_returns events : ∀ s,
  committing events s →
  (∀ e, e ∈ events → ccons s !! ccon_id e = None →
        location_map_unknown s ≠ None) →
  ∃ s', commit_events events s = Done s'.
Proof.
  induction events as [|event rest IH]; intros s Hcm Hreg; [by eexists|].
  destruct (commit_event_returns _ _ _ Hcm) as [s1 Hstep].
  { apply Hreg, list_elem_of_here. }
  destruct (commit_event_Done _ _ _ _ Hcm Hstep) as (Hcm1 & Hfr1 & _ & Hoth).
  destruct (IH s1 Hcm1) as [s' Hrest].
  { intros e He Hc.
    assert (ccon_id e ≠ ccon_id event) as Hne.
    { intros Heq. apply (NoDup_cons_1_1 _ _ (cm_nodup _ _ Hcm)).
      rewrite <- Heq. apply list_elem_of_fmap. by exists e. }
    destruct (Hoth _ Hne) as [Hk _]. rewrite Hk in Hc.
    destruct Hfr1 as (_&_&_&_&_&_&_&->).
    apply (Hreg e); [by apply list_elem_of_further|done]. }
  exists s'. simpl. by rewrite Hstep.
Qed.

End Commit.

(** ** The maximum search *)

Section Argmax.

Implicit Types (rows : list (list cell)) (row : list cell).

Lemma max_loop_returns rows :
  Forall sampled rows → ∀ i argmax valmax, ∃ a, max_loop rows i argmax valmax = inr a.
Proof.
  induction 1 as [|row rows [v Hv] _ IH]; intros i argmax valmax; simpl.
  - by eexists.
  - rewrite Hv. destruct (v >? valmax); apply IH.
Qed.

(** Values that do not exceed [valmax] leave [argmax] where it is. *)
Lemma max_loop_keeps rows : ∀ i argmax valmax a,
  max_loop rows i argmax valmax = inr a →
  (∀ row v, row ∈ rows → last row = Some (Some v) → v ≤ valmax) →
  a = argmax.
Proof.
  induction rows as [|row rows IH]; intros i argmax valmax a Hloop Hle; simpl in Hloop.
  - congruence.
  - destruct (last row) as [[v|]|] eqn:Hv; try done.
    assert (v ≤ valmax) as Hv' by (eapply Hle; [apply list_elem_of_here|done]).
    destruct (v >? valmax) eqn:Hgt; [lia|].
    eapply IH; [done|]. intros row' w Hin. apply Hle. by apply list_elem_of_further.
Qed.

(** The search returns the first row whose last value is the greatest,
    as long as that value beats the start value. *)
Lemma max_loop_first rows : ∀ k i argmax valmax a row v,
  max_loop rows i argmax valmax = inr a →
  rows !! k = Some row → last row = Some (Some v) → valmax < v →
  (∀ j row' w, rows !! j = Some row' → last row' = Some (Some w) →
     w ≤ v ∧ ((j < k)%nat → w < v)) →
  a = i + Z.of_nat k.
Proof.
  induction rows as [|row0 rows IH]; intros k i argmax valmax a row v Hloop Hk Hv Hgt Hmax;
    [done|].
  simpl in Hloop. destruct k as [|k]; simpl in Hk.
  - injection Hk as ->. rewrite Hv in Hloop.
    destruct (v >? valmax) eqn:E; [|lia].
    rewrite Z.add_0_r. eapply max_loop_keeps; [done|].
    intros row' w Hin Hw. apply list_elem_of_lookup in Hin as [j Hj].
    by apply (Hmax (S j) row' w).
  - destruct (last row0) as [[w|]|] eqn:Hw; try done.
    destruct (Hmax 0%nat row0 w eq_refl Hw) as [_ Hlt].
    specialize (Hlt ltac:(lia)).
    assert (∀ j row' w', rows !! j = Some row' → last row' = Some (Some w') →
              w' ≤ v ∧ ((j < k)%nat → w' < v)) as Hmax'.
    { intros j row' w' Hj Hw'. destruct (Hmax (S j) row' w' Hj Hw') as [? Hl].
      split; [done|]. intros ?. apply Hl. lia. }
    destruct (w >? valmax) eqn:E.
    + rewrite (IH k (i + 1) i w a row v Hloop Hk Hv Hlt Hmax'). lia.
    + rewrite (IH k (i + 1) argmax valmax a row v Hloop Hk Hv Hgt Hmax'). lia.
Qed.

(** A row that holds only values below zero, like every row when all
    signal strengths are negative, never takes the lead. *)
Lemma get_max_rssi_negative rows a :
  get_max_rssi rows = inr a →
  (∀ row v, row ∈ rows → last row = Some (Some v) → v < 0) →
  a = -1.
Proof.
  intros Hloop Hneg. eapply max_loop_keeps; [done|].
  intros row v Hin Hv. specialize (Hneg row v Hin Hv). lia.
Qed.

End Argmax.

(** ** States between calls *)

Section Invariant.

Implicit Types (s : Sensor) (e event : Event) (row : list cell).

Lemma pad_row_short n row :
  length row = (n - 1)%nat → (1 ≤ n)%nat → pad_row n row = row ++ [Some 0].
Proof.
  intros Hlen Hn. unfold pad_row.
  destruct (Nat.ltb_spec (length row) n); [done|lia].
Qed.

Lemma pad_row_full n row : length row = n → pad_row n row = row.
Proof.
  intros Hlen. unfold pad_row.
  destruct (Nat.ltb_spec (length row) n); [lia|done].
Qed.

Lemma pad_rows_ok n rows :
  (1 ≤ n)%nat → Forall (row_ok n) rows →
  Forall (λ row, length row = n ∧ sampled row) (pad_rows n rows).
Proof.
  intros Hn Hrows. unfold pad_rows. apply Forall_fmap.
  eapply Forall_impl; [done|]. intros row [Hlen|[Hlen Hv]]; simpl.
  - rewrite pad_row_short by done. split.
    + rewrite length_app. simpl. lia.
    + eexists. apply last_snoc.
  - by rewrite pad_row_full.
Qed.

(** [finish_update], when it returns. *)
Lemma finish_update_Done s s' :
  finish_update s = Done s' →
  ∃ a, get_max_rssi (rssi s') = inr a ∧
       s' = set_event_buffer [] (set_buffering false
              (set_max_rssi (max_rssi s ++ [Some a])
                 (set_rssi (pad_rows (n_events s) (rssi s)) s))).
Proof.
  unfold finish_update. fields.
  destruct (get_max_rssi (pad_rows (n_events s) (rssi s))) as [e|a] eqn:Hmax; [done|].
  intros [= <-]. by exists a.
Qed.

Lemma finish_update_returns s :
  committing [] s → ∃ s', finish_update s = Done s'.
Proof.
  intros Hcm. unfold finish_update. fields.
  destruct (max_loop_returns (pad_rows (n_events s) (rssi s))) with (i := 0)
    (argmax := -1) (valmax := -1) as [a Ha].
  { eapply Forall_impl; [apply pad_rows_ok; apply Hcm|]. by intros row [_ ?]. }
  unfold get_max_rssi. rewrite Ha. by eexists.
Qed.

Lemma opened_committing s t : wf s → committing (event_buffer s) (opened s t).
Proof.
  intros [[Hsz Hrg Hinj] Hpos Hrows Hux Hmx Hnd Hfl].
  split; simpl; [by split|lia| | |done].
  - eapply Forall_impl; [done|]. intros row Hlen. left. simpl in *. lia.
  - intros e i row _ Hi Hrow.
    rewrite Forall_forall in Hrows. rewrite Nat.sub_0_r. apply Hrows.
    apply list_elem_of_lookup. eauto.
Qed.

Lemma update_event_data_unfold s t :
  event_buffer s ≠ [] →
  update_event_data s t = commit_events (event_buffer s) (opened s t) >>= finish_update.
Proof.
  intros Hne. unfold update_event_data.
  destruct (last (event_buffer s)) eqn:Hlast; [done|].
  by apply last_None in Hlast.
Qed.

Lemma update_event_data_empty s t :
  event_buffer s = [] → update_event_data s t = Raised IndexError s.
Proof. intros Hnil. unfold update_event_data. by rewrite Hnil. Qed.

Lemma update_event_data_Done s t s' :
  wf s → update_event_data s t = Done s' → flushed s t s'.
Proof.
  intros Hwf Hdone.
  destruct (decide (event_buffer s = [])) as [Hnil|Hne].
  { by rewrite update_event_data_empty in Hdone. }
  rewrite update_event_data_unfold in Hdone by done.
  apply bind_Done in Hdone as (s2 & Hloop & Hfin).
  pose proof (opened_committing s t Hwf) as Hcm.
  destruct (commit_events_Done _ _ _ Hcm Hloop) as (Hcm2 & Hfr & Hall).
  destruct Hfr as (Hid & Hux & Hmx & Hn & Hle & Hbf & Hbuf & Hunk).
  apply finish_update_Done in Hfin as (a & Ha & ->).
  pose proof (pad_rows_ok _ _ (cm_pos _ _ Hcm2) (cm_rows _ _ Hcm2)) as Hpad.
  destruct Hcm2 as [[Hsz Hrg Hinj] Hpos Hrows _ _].
  simpl in Hux, Hmx, Hn, Hle, Hunk, Hid.
  split; fields.
  - split; fields.
    + split; fields.
      * unfold pad_rows. by rewrite length_fmap.
      * intros c i Hc. unfold pad_rows. rewrite length_fmap. by eapply Hrg.
      * done.
    + lia.
    + eapply Forall_impl; [done|]. by intros row [? _].
    + rewrite Hux, length_app, Hn. simpl. rewrite (wf_unixtime _ Hwf). lia.
    + rewrite Hmx, length_app, Hn. simpl. rewrite (wf_max_rssi _ Hwf). lia.
    + simpl. apply NoDup_nil_2.
    + done.
  - done.
  - done.
  - exists a. by rewrite Hmx.
  - done.
  - done.
  - done.
  - done.
  - done.
  - intros e He. destruct (Hall e He) as (i & row & Hi & Hrow & Hlen & Hnew).
    exists i, row. fields. split_and!; [done| |done..].
    unfold pad_rows. rewrite list_lookup_fmap, Hrow. simpl. f_equal.
    apply pad_row_full. rewrite length_app, Hlen, Hn. simpl. lia.
  - intros c Hc.
    destruct (commit_events_kept _ _ _ _ Hcm Hloop Hc) as [Hk1 Hk2].
    split; [done|]. intros i row Hi Hrow. fields.
    unfold pad_rows. rewrite list_lookup_fmap, (Hk2 i row Hi Hrow). simpl.
    f_equal. apply pad_row_short; [|lia]. rewrite Hn. simpl.
    pose proof (wf_rows _ Hwf) as Hr. rewrite Forall_forall in Hr.
    rewrite Nat.sub_0_r. apply Hr. apply list_elem_of_lookup. eauto.
Qed.

(** [update_event_data] returns on a non-empty buffer, unless it has to
    register a connector while [location_map_unknown] is unset. *)
Lemma update_event_data_returns s t :
  wf s → event_buffer s ≠ [] →
  (∀ e, e ∈ event_buffer s → ccons s !! ccon_id e = None →
        location_map_unknown s ≠ None) →
  ∃ s', update_event_data s t = Done s'.
Proof.
  intros Hwf Hne Hreg. rewrite update_event_data_unfold by done.
  pose proof (opened_committing s t Hwf) as Hcm.
  destruct (commit_events_returns _ _ Hcm Hreg) as [s2 Hloop].
  rewrite Hloop. simpl.
  apply finish_update_returns.
  by destruct (commit_events_Done _ _ _ Hcm Hloop) as (? & _).
Qed.

Lemma new_event_data_wf s event : wf s → wf (new_event_data s event).
Proof.
  intros [[Hsz Hrg Hinj] Hpos Hrows Hux Hmx Hnd Hfl].
  split; [by split|done..|by apply new_event_data_NoDup|].
  split; [intros _; apply new_event_data_nonempty|done].
Qed.

Lemma update_empty_wf s t : wf s → wf (update_empty s t).
Proof.
  intros [[Hsz Hrg Hinj] Hpos Hrows Hux Hmx Hnd Hfl].
  unfold update_empty. split; fields; try done.
  - split; fields; unfold pad_rows; rewrite ?length_fmap; eauto.
  - lia.
  - unfold pad_rows. apply Forall_fmap. eapply Forall_impl; [done|].
    intros row Hlen. unfold compose. cbn beta in *. rewrite pad_row_short by lia.
    rewrite length_app. simpl. lia.
  - rewrite length_app. simpl. lia.
  - rewrite length_app. simpl. lia.
Qed.

End Invariant.

(** ** Construction *)

Section Construction.

Implicit Types (locations : list location) (l : list string).

Lemma initial_ccons_spec l :
  NoDup l →
  size (foldl add_ccon (∅, []) l).1 = length l ∧
  length (foldl add_ccon (∅, []) l).2 = length l ∧
  Forall (λ row, row = [None]) (foldl add_ccon (∅, []) l).2 ∧
  ∀ c i, (foldl add_ccon (∅, []) l).1 !! c = Some i ↔ l !! i = Some c.
Proof.
  induction l as [|c l IH] using rev_ind; intros Hnd.
  - simpl. split_and!; [done..|]. intros c i. by rewrite lookup_empty.
  - apply NoDup_app in Hnd as (Hnd & Hnin & _).
    destruct (IH Hnd) as (Hsz & Hlen & Hrows & Hlk).
    rewrite foldl_snoc. unfold add_ccon at 1 3 5 7. cbn [fst snd].
    set (acc := foldl add_ccon (∅, []) l) in *.
    assert (acc.1 !! c = None) as Hfresh.
    { destruct (acc.1 !! c) as [i|] eqn:Hc; [|done].
      apply Hlk in Hc. exfalso. apply (Hnin c).
      - apply list_elem_of_lookup. eauto.
      - apply list_elem_of_here. }
    split_and!.
    + rewrite map_size_insert_None, length_app by done. simpl. lia.
    + rewrite !length_app. simpl. lia.
    + apply Forall_app. split; [done|]. by apply Forall_singleton.
    + intros c' i. rewrite lookup_insert_Some. split.
      * intros [[<- <-]|[Hne Hc']].
        -- rewrite Hsz, lookup_app_r, Nat.sub_diag by lia. done.
        -- apply Hlk in Hc'. rewrite lookup_app_l; [done|].
           by eapply lookup_lt_Some.
      * intros Hi. destruct (decide (i < length l)%nat) as [Hlt|Hge].
        -- rewrite lookup_app_l in Hi by done. right. split; [|by apply Hlk].
           intros <-. apply (Hnin c); [|apply list_elem_of_here].
           apply list_elem_of_lookup. eauto.
        -- rewrite lookup_app_r in Hi by lia.
           destruct (i - length l)%nat as [|k] eqn:Hk; simpl in Hi; [|done].
           injection Hi as <-. left. split; [done|]. lia.
Qed.

(** A configuration that names every connector once gives a state in
    which rows and indices agree. *)
Lemma new_Sensor_wf locations id :
  NoDup (concat locations) → wf (new_Sensor locations id).
Proof.
  intros Hnd.
  destruct (initial_ccons_spec _ Hnd) as (Hsz & Hlen & Hrows & Hlk).
  split; simpl; unfold initial_ccons.
  - split; simpl; unfold initial_ccons.
    + congruence.
    + intros c i Hc. apply Hlk in Hc. rewrite Hlen. by eapply lookup_lt_Some.
    + intros c1 c2 i H1 H2. apply Hlk in H1, H2. congruence.
  - lia.
  - eapply Forall_impl; [done|]. by intros row ->.
  - done.
  - done.
  - apply NoDup_nil_2.
  - done.
Qed.

Lemma add_location_nonempty i acc (loc : location) :
  loc ≠ [] → (add_location i acc loc).2 = Some (i + 1)%nat.
Proof.
  unfold add_location. destruct loc as [|c loc _] using rev_ind; [done|].
  intros _. by rewrite foldl_snoc.
Qed.

Lemma location_map_loop_snoc locations : ∀ i acc loc,
  location_map_loop i (locations ++ [loc]) acc =
    add_location (i + length locations) (location_map_loop i locations acc) loc.
Proof.
  induction locations as [|loc0 locations IH]; intros i acc loc; simpl.
  - by rewrite Nat.add_0_r.
  - rewrite IH. f_equal. lia.
Qed.

(** When the last location of the configuration has a connector, the
    unknown id is the number of locations. *)
Lemma unknown_is_location_count locations loc :
  loc ≠ [] →
  (initial_location_map (locations ++ [loc])).2 = Some (length (locations ++ [loc])).
Proof.
  intros Hne. unfold initial_location_map.
  rewrite location_map_loop_snoc, add_location_nonempty by done.
  rewrite length_app. simpl. done.
Qed.

End Construction.

Example basename_device : basename "projects/p/devices/tag" = "tag"%string.
Proof. reflexivity. Qed.

Example replay_result_ticks :
  (unixtime <$> sensors_of replay_result) = [[None; Some 4]]
  ∧ is_unfinished replay_result = false
  ∧ (rssi <$> sensors_of replay_result) = [[[None; Some 50]; [None; Some 40]]]
  ∧ (max_rssi <$> sensors_of replay_result) = [[None; Some 0]].
Proof. vm_compute. done. Qed.

Lemma scenario_A_loop a b :
  commit_events
    (event_buffer (new_event_data (new_event_data (new_Sensor topology_A "tag") (event_A a)) (event_B b)))
    (opened (new_event_data (new_event_data (new_Sensor topology_A "tag") (event_A a)) (event_B b)) 2000)
  = Done (mkSensor "tag" [None; Some 2000] [[None; Some a]; [None; Some b]]
            (<["ConnB"%string := 1%nat]> (<["ConnA"%string := 0%nat]> ∅)) []
            [None] 2 500 true [event_A a; event_B b] [0%nat; 0%nat] (Some 1%nat)).
Proof. vm_compute. reflexivity. Qed.

Lemma scenario_A_max a b :
  0 ≤ a → b ≤ a → get_max_rssi [[None; Some a]; [None; Some b]] = inr 0.
Proof.
  intros Ha Hb. unfold get_max_rssi. cbn [max_loop last].
  destruct (Z.gtb_spec a (-1)); [|lia].
  destruct (Z.gtb_spec b a); [lia|done].
Qed.

(** C1, amended: in scenario A with signal strengths [a] for ConnA and
    [b] for ConnB, where [a] is not negative and [b] does not exceed it,
    the flush commits one tick in which [a] and [b] are appended to the
    rows of ConnA and ConnB and ConnA, at location 0, is the maximum. *)
Theorem scenario_A_commit a b :
  0 ≤ a → b ≤ a → scenario_A_expected a b.
Proof.
  intros Ha Hb. unfold scenario_A_expected, scenario_A.
  rewrite update_event_data_unfold by (vm_compute; discriminate).
  rewrite scenario_A_loop. cbn [bind]. unfold finish_update. fields.
  change (pad_rows 2 [[None; Some a]; [None; Some b]])
    with [[None; Some a]; [None; Some b]].
  rewrite scenario_A_max by done.
  eexists. split; [reflexivity|]. fields.
  split_and!; reflexivity.
Qed.

Lemma scenario_A_commit_witness : scenario_A_expected 50 40.
Proof. apply (scenario_A_commit 50 40); lia. Defined.

(** C1 as stated, with RSSI -50 and -60: neither value beats the start
    value -1 of the search, and the tick holds -1 instead of ConnA's row. *)
Lemma scenario_A_negative_rssi : ¬ scenario_A_expected (-50) (-60).
Proof.
  intros (s' & Hs' & _ & _ & _ & _ & _ & Hmax & _).
  assert (max_rssi (state_of (scenario_A (-50) (-60))) = [None; Some (-1)]) as H
    by (vm_compute; reflexivity).
  rewrite Hs' in H. simpl in H. congruence.
Qed.

(** The rows do get -50 and -60; the tick's location is still 0, read
    through Python's index -1, the row of ConnB. *)
Example scenario_A_negative_rssi_state :
  ∃ s', scenario_A (-50) (-60) = Done s' ∧
    rssi s' = [[None; Some (-50)]; [None; Some (-60)]] ∧
    max_rssi s' = [None; Some (-1)] ∧ tick_location s' 1 = Some 0%nat.
Proof. eexists. split; [vm_compute; reflexivity|]. split_and!; reflexivity. Qed.

Lemma update_event_data_max s t s' :
  update_event_data s t = Done s' →
  ∃ a, get_max_rssi (rssi s') = inr a ∧ max_rssi s' = max_rssi s ++ [Some a]
       ∧ event_buffer s' = [] ∧ buffering s' = false.
Proof.
  intros Hdone.
  destruct (decide (event_buffer s = [])) as [Hnil|Hne].
  { by rewrite update_event_data_empty in Hdone. }
  rewrite update_event_data_unfold in Hdone by done.
  apply bind_Done in Hdone as (s2 & Hloop & Hfin).
  apply finish_update_Done in Hfin as (a & Ha & ->).
  exists a. fields. split_and!; [done| |done..].
  f_equal.
  assert (∀ events s1 s3, commit_events events s1 = Done s3 →
            max_rssi s3 = max_rssi s1) as Hkeep.
  { clear. induction events as [|e events IH]; intros s1 s3 H.
    - by injection H as <-.
    - simpl in H. apply bind_Done in H as (s2 & Hstep & Hrest).
      rewrite (IH _ _ Hrest). clear -Hstep.
      unfold commit_event, register_ccon, append_rssi in Hstep.
      repeat (case_match; simplify_eq/=); done. }
  by rewrite (Hkeep _ _ _ Hloop).
Qed.

(** C2, amended: in the state a flush returns, when the greatest value
    just appended is not negative, the tick holds the first row with that
    value, whether or not later rows hold it too: the comparison is a
    strict [>], so an equal value in a later row does not take the lead. *)
Theorem tie_keeps_earliest s t s' k v :
  update_event_data s t = Done s' →
  greatest_first_at s' k v → 0 ≤ v →
  last (max_rssi s') = Some (Some (Z.of_nat k)).
Proof.
  intros Hdone [(row & Hk & Hv) Hmax] Hpos.
  apply update_event_data_max in Hdone as (a & Ha & -> & _).
  rewrite last_snoc. do 2 f_equal.
  rewrite (max_loop_first _ k 0 (-1) (-1) a row v Ha Hk Hv ltac:(lia) Hmax).
  lia.
Qed.

Lemma tie_keeps_earliest_witness :
  last (max_rssi tie_after) = Some (Some (Z.of_nat 0)).
Proof.
  apply (tie_keeps_earliest tie_before 2000 tie_after 0%nat 50).
  - vm_compute. reflexivity.
  - split.
    + exists [None; Some 50]. split; reflexivity.
    + intros [|[|j]] row' w Hj Hw; cbn in Hj;
        [| |by destruct j];
        injection Hj as <-; cbn in Hw; injection Hw as <-; lia.
  - lia.
Defined.

(** C2 as stated: with -50 on both rows the flush returns, row 0 is the
    first row with the greatest value and row 1 ties with it, yet the
    tick holds -1. *)
Lemma tie_of_negative_rssi :
  ¬ (∀ s', scenario_tie = Done s' → tie_goes_to_earliest s').
Proof.
  intros Hclaim.
  assert (scenario_tie = Done negative_tie_after) as Hdone
    by (vm_compute; reflexivity).
  specialize (Hclaim _ Hdone 0%nat (-50)).
  enough (Some (Some (-1)) = Some (Some (Z.of_nat 0))) by done.
  apply Hclaim.
  - split.
    + exists [None; Some (-50)]. split; reflexivity.
    + intros [|[|j]] row' w Hj Hw; cbn in Hj;
        [| |by destruct j];
        injection Hj as <-; cbn in Hw; injection Hw as <-; lia.
  - exists 1%nat, [None; Some (-50)]. split_and!; [done|reflexivity..].
Qed.

(** ** The sensor between calls *)

Section Reachable.

Variable locations : list location.
Variable id : string.

Lemma reachable_wf s :
  NoDup (concat locations) → reachable locations id s → wf s.
Proof.
  intros Hnd. induction 1 as [|s event _ IH|s t s' _ IH Hdone|s t _ IH].
  - by apply new_Sensor_wf.
  - by apply new_event_data_wf.
  - by apply (fl_wf _ _ _ (update_event_data_Done _ _ _ IH Hdone)).
  - by apply update_empty_wf.
Qed.

Lemma reachable_flag s :
  reachable locations id s → (buffering s = true ↔ event_buffer s ≠ []).
Proof.
  induction 1 as [|s event _ IH|s t s' _ IH Hdone|s t _ IH].
  - done.
  - split; [intros _; apply new_event_data_nonempty|done].
  - apply update_event_data_max in Hdone as (a & _ & _ & -> & ->). done.
  - done.
Qed.

End Reachable.

Lemma after_A_reachable : reachable topology_A "tag" after_A.
Proof.
  apply (reach_update_event_data _ _
           (new_event_data (new_event_data (new_Sensor topology_A "tag") (event_A 50))
              (event_B 40)) 2000).
  - apply reach_new_event_data, reach_new_event_data, reach_new.
  - vm_compute. reflexivity.
Qed.

Lemma heard_C_reachable : reachable topology_A "tag" heard_C.
Proof.
  assert (heard_C = new_event_data after_A event_C) as ->
    by (vm_compute; reflexivity).
  apply reach_new_event_data, after_A_reachable.
Qed.

Lemma topology_A_NoDup : NoDup (concat topology_A).
Proof. compute_done. Qed.

(** C3: [update_event_data] on an empty buffer raises [IndexError] at its
    first line and leaves the sensor as it was: no tick is committed and
    no maximum is searched. *)
Theorem flush_of_empty_buffer_fails_fast s t :
  event_buffer s = [] →
  update_event_data s t = Raised IndexError s.
Proof. apply update_event_data_empty. Qed.

Lemma flush_of_empty_buffer_fails_fast_witness :
  update_event_data after_A 3000 = Raised IndexError after_A.
Proof. apply (flush_of_empty_buffer_fails_fast after_A 3000). reflexivity. Defined.



(** Why the configuration must name each connector once: the constructor
    gives a connector listed twice a second row without a second index, so
    the next new connector shares its row with it, and a tick in which
    both are heard appends twice to that row. *)
Example rows_of_connector_listed_twice :
  n_events twice_after = 3%nat ∧
  ccons twice_after !! "ConnA"%string = Some 2%nat ∧
  ccons twice_after !! "ConnC"%string = Some 2%nat ∧
  rssi twice_after !! 2%nat = Some [None; Some 30; Some 50; Some 30].
Proof. split_and!; reflexivity. Qed.

(** C5, amended: for a configuration that names each connector once, a
    connector that is in the buffer and not yet known when the flush of
    tick [k = n_events s] runs (and [k] is at least 1) gets a
    row of exactly [k] zeros, for the ticks 0 to [k - 1], followed by its
    sample at tick [k]. *)
Theorem new_row_is_backfilled locations id s t s' event :
  NoDup (concat locations) → reachable locations id s →
  event ∈ event_buffer s → ccons s !! ccon_id event = None →
  update_event_data s t = Done s' →
  (1 ≤ n_events s)%nat ∧
  ∃ i, ccons s' !! ccon_id event = Some i ∧
       rssi s' !! i =
         Some (replicate (n_events s) (Some 0) ++ [Some (signalStrength event)]) ∧
       n_events s' = S (n_events s).
Proof.
  intros Hnd Hreach Hin Hnew Hdone.
  pose proof (reachable_wf _ _ _ Hnd Hreach) as Hwf.
  pose proof (update_event_data_Done _ _ _ Hwf Hdone) as Hfl.
  split; [apply (wf_pos _ Hwf)|].
  destruct (fl_committed _ _ _ Hfl event Hin) as (i & row & Hi & Hrow & Hlen & Hzero).
  exists i. split_and!; [done| |apply (fl_n_events _ _ _ Hfl)].
  rewrite Hrow, (Hzero Hnew). simpl. by rewrite Nat.sub_0_r.
Qed.

Lemma new_row_is_backfilled_witness :
  (1 ≤ n_events heard_C)%nat ∧
  ∃ i, ccons after_C !! ccon_id event_C = Some i ∧
       rssi after_C !! i =
         Some (replicate (n_events heard_C) (Some 0) ++ [Some (signalStrength event_C)]) ∧
       n_events after_C = S (n_events heard_C).
Proof.
  apply (new_row_is_backfilled topology_A "tag" heard_C 5000 after_C event_C).
  - apply topology_A_NoDup.
  - apply heard_C_reachable.
  - apply list_elem_of_here.
  - reflexivity.
  - vm_compute. reflexivity.
Defined.

(** ** A connector listed under two locations *)

Lemma twice_heard_C_reachable : reachable topology_twice "tag" twice_heard_C.
Proof.
  assert (twice_heard_C = new_event_data (new_Sensor topology_twice "tag") event_C)
    as -> by (vm_compute; reflexivity).
  apply reach_new_event_data, reach_new.
Qed.

Lemma twice_after_C_flush : update_event_data twice_heard_C 5000 = Done twice_after_C.
Proof. vm_compute. reflexivity. Qed.



(** C5 as the design document words it, for every configuration the
    constructor accepts: on [topology_twice] the new ConnC is given the
    index 2 of ConnA's second row, so its sample lands behind the [None]
    of that row while the row of zeros registered for it never gets it. *)
Lemma no_backfill_when_listed_twice :
  reachable topology_twice "tag" twice_heard_C ∧
  event_C ∈ event_buffer twice_heard_C ∧
  ccons twice_heard_C !! ccon_id event_C = None ∧
  update_event_data twice_heard_C 5000 = Done twice_after_C ∧
  ¬ backfilled twice_heard_C twice_after_C event_C.
Proof.
  split_and!.
  - apply twice_heard_C_reachable.
  - apply list_elem_of_here.
  - reflexivity.
  - apply twice_after_C_flush.
  - intros (i & Hi & Hrow).
    assert (ccons twice_after_C !! ccon_id event_C = Some 2%nat) as Hi'
      by reflexivity.
    rewrite Hi' in Hi. injection Hi as <-.
    assert (rssi twice_after_C !! 2%nat = Some [None; Some 30]) as Hrow'
      by reflexivity.
    rewrite Hrow' in Hrow. discriminate Hrow.
Qed.

(** ** The buffer and the flag *)

(** C7: after any calls of [new_event_data] on an empty buffer, the
    buffer holds one entry per connector at most, the entry of a connector
    is the event handed over last for it, and it is the only entry of that
    connector; two events of one connector leave the second alone. *)
Theorem buffer_keeps_latest s events :
  event_buffer s = [] →
  NoDup (map ccon_id (event_buffer (ingest_all s events))) ∧
  (∀ c, buffered c (event_buffer (ingest_all s events)) = latest c events) ∧
  (∀ c, filter (λ e, ccon_id e = c) (event_buffer (ingest_all s events)) =
        match latest c events with Some e => [e] | None => [] end) ∧
  (∀ e1 e2, ccon_id e1 = ccon_id e2 →
     event_buffer (new_event_data (new_event_data s e1) e2) = [e2]).
Proof.
  intros Hnil.
  assert (NoDup (map ccon_id (event_buffer (ingest_all s events)))) as Hnd.
  { apply ingest_all_NoDup. rewrite Hnil. apply NoDup_nil_2. }
  assert (∀ c, buffered c (event_buffer (ingest_all s events)) = latest c events) as Hlast.
  { intros c. rewrite ingest_all_buffered, Hnil. by destruct (latest c events). }
  split_and!; [done..| |].
  - intros c. by rewrite filter_buffered, Hlast.
  - intros e1 e2 Heq. simpl. rewrite Hnil. simpl.
    unfold same_ccon. by rewrite !bool_decide_eq_true_2.
Qed.

Lemma buffer_keeps_latest_witness :
  NoDup (map ccon_id (event_buffer (ingest_all after_A window_events))) ∧
  (∀ c, buffered c (event_buffer (ingest_all after_A window_events)) =
        latest c window_events) ∧
  (∀ c, filter (λ e, ccon_id e = c) (event_buffer (ingest_all after_A window_events)) =
        match latest c window_events with Some e => [e] | None => [] end) ∧
  (∀ e1 e2, ccon_id e1 = ccon_id e2 →
     event_buffer (new_event_data (new_event_data after_A e1) e2) = [e2]).
Proof. apply (buffer_keeps_latest after_A window_events). reflexivity. Defined.

(** C10: in every state reached from the constructor, [buffering] is set
    exactly when the buffer is not empty; so under the director's guard,
    and already when [buffering] is set, [self.event_buffer[-1]] at the
    start of [update_event_data] finds an event. *)
Theorem buffering_iff_buffered locations id s :
  reachable locations id s →
  (buffering s = true ↔ event_buffer s ≠ []) ∧
  (buffering s = true → ∃ e, last (event_buffer s) = Some e) ∧
  (∀ p unix_now, settled p unix_now s = true →
     ∃ e, last (event_buffer s) = Some e ∧
          update_event_data s unix_now ≠ Raised IndexError s).
Proof.
  intros Hreach. pose proof (reachable_flag _ _ _ Hreach) as Hflag.
  assert (buffering s = true → ∃ e, last (event_buffer s) = Some e) as Hlast.
  { intros Hb. apply Hflag in Hb.
    destruct (last (event_buffer s)) as [e|] eqn:E; [by exists e|].
    by apply last_None in E. }
  split_and!; [done..|].
  intros p unix_now Hs. unfold settled in Hs.
  apply andb_true_iff in Hs as [Hs _]. apply andb_true_iff in Hs as [Hb _].
  destruct (Hlast Hb) as [e He]. exists e. split; [done|].
  rewrite update_event_data_unfold by (by apply Hflag).
  intros Hraise.
  assert (n_events (state_of (commit_events (event_buffer s) (opened s unix_now)
                                >>= finish_update)) ≠ n_events s) as Hn.
  { assert (∀ events s1, n_events (state_of (commit_events events s1 >>= finish_update))
                         = n_events s1) as Hkeep.
    { clear. induction events as [|e events IH]; intros s1.
      - simpl. unfold finish_update. by case_match.
      - simpl. unfold commit_event, register_ccon, append_rssi.
        repeat (case_match; simpl; try done); by rewrite IH. }
    rewrite Hkeep. simpl. lia. }
  by rewrite Hraise in Hn.
Qed.

Lemma heard_A_reachable : reachable topology_A "tag" heard_A.
Proof.
  assert (heard_A = new_event_data (new_Sensor topology_A "tag") (event_A 50)) as ->
    by (vm_compute; reflexivity).
  apply reach_new_event_data, reach_new.
Qed.

Lemma buffering_iff_buffered_witness :
  (buffering heard_A = true ↔ event_buffer heard_A ≠ []) ∧
  (buffering heard_A = true → ∃ e, last (event_buffer heard_A) = Some e) ∧
  (∀ p unix_now, settled p unix_now heard_A = true →
     ∃ e, last (event_buffer heard_A) = Some e ∧
          update_event_data heard_A unix_now ≠ Raised IndexError heard_A).
Proof. apply (buffering_iff_buffered topology_A "tag" heard_A heard_A_reachable). Defined.

(** ** The unknown location id *)

(** C6, at a configuration of two locations of which the last is empty:
    the unknown id is set inside the loop over the connectors of a
    location, so it stays at 1, the index of the second location, and the
    connector absent from the configuration is given location 1 instead of
    the location count 2. *)
Theorem unknown_id_after_empty_location :
  length topology_trailing = 2%nat ∧
  location_map_unknown (new_Sensor topology_trailing "tag") = Some 1%nat ∧
  ∃ s', update_event_data trailing_heard_C 5000 = Done s' ∧
        ccons s' !! "ConnC"%string = Some 1%nat ∧
        location_map s' = [0%nat; 1%nat] ∧
        tick_location s' 1 = Some 1%nat.
Proof.
  split_and!; [reflexivity..|].
  eexists. split; [vm_compute; reflexivity|]. split_and!; reflexivity.
Qed.

(** Without any connector in the configuration the attribute is never
    set, and registering raises. *)
Example unknown_id_unset :
  location_map_unknown (new_Sensor [[]; []] "tag") = None ∧
  ∃ s', update_event_data (new_event_data (new_Sensor [[]; []] "tag") event_C) 5000
        = Raised AttributeError s'.
Proof. split; [reflexivity|]. eexists. vm_compute. reflexivity. Qed.

(** ** Replay *)

Section Replay.

Implicit Types (sensors ss : list Sensor) (pending : list Event).

Lemma in_time_order_strong pending :
  in_time_order pending →
  StronglySorted (λ a b, updateTime a ≤ updateTime b) pending.
Proof.
  apply Sorted_StronglySorted. intros a b c Hab Hbc. lia.
Qed.

Lemma due_none unix_now pending :
  Forall (λ e, unix_now ≤ updateTime e) pending →
  due unix_now pending = [] ∧ not_due unix_now pending = pending.
Proof.
  unfold due, not_due. induction 1 as [|e pending He _ [IH1 IH2]]; [done|].
  rewrite !filter_cons, IH1, IH2.
  destruct (decide (updateTime e < unix_now)); [lia|].
  destruct (decide (¬ updateTime e < unix_now)); [done|lia].
Qed.

(** The inner loop serves exactly the pending events that lie before the
    cursor, in their order, and leaves the others pending. *)
Lemma catch_up_in_time_order unix_now pending : ∀ ss,
  in_time_order pending →
  catch_up unix_now pending ss =
    (not_due unix_now pending,
     foldl director_new_event_data ss (due unix_now pending)).
Proof.
  induction pending as [|e pending IH]; intros ss Hsorted; [done|].
  simpl. destruct (Z.ltb_spec (updateTime e) unix_now) as [Hlt|Hge].
  - rewrite IH by (by inversion Hsorted).
    unfold due, not_due. rewrite !filter_cons.
    destruct (decide (updateTime e < unix_now)); [|done].
    by destruct (decide (¬ updateTime e < unix_now)).
  - apply in_time_order_strong in Hsorted.
    apply StronglySorted_inv in Hsorted as [_ Hall].
    destruct (due_none unix_now (e :: pending)) as [-> ->]; [|done].
    constructor; [done|]. eapply Forall_impl; [done|]. simpl. lia.
Qed.

Lemma not_due_in_time_order unix_now pending :
  in_time_order pending → in_time_order (not_due unix_now pending).
Proof.
  intros Hsorted. apply in_time_order_strong in Hsorted.
  apply StronglySorted_Sorted. unfold not_due.
  induction Hsorted as [|e pending _ IH Hall]; [constructor|].
  rewrite filter_cons. case_decide; [|done].
  constructor; [done|]. apply Forall_forall. intros x Hx.
  apply list_elem_of_filter in Hx as [_ Hx].
  rewrite Forall_forall in Hall. by apply Hall.
Qed.

End Replay.

Lemma replay_history_in_time_order : in_time_order replay_history.
Proof. repeat constructor; simpl; lia. Qed.

(** ** Replay with the arithmetic of the source *)

Section ReplayIn.

Variable c : Setup.

Implicit Types (sensors ss : list Sensor) (pending : list Event) (turns : list Z).



Lemma simulate_in_stop unix_end fuel unix_now pending ss :
  unix_end < unix_now →
  simulate_in c unix_end (S fuel) unix_now pending ss = Finished ss.
Proof.
  intros Hlt. simpl. destruct (Z.leb_spec unix_now unix_end); [lia|done].
Qed.

(** A turn that serves nothing, changes no sensor and leaves the cursor
    where it is comes again for ever. *)
Lemma simulate_in_stuck unix_end unix_now pending ss :
  unix_now ≤ unix_end →
  catch_up unix_now pending ss = (pending, ss) →
  check_sensors_in c unix_now ss = Checked ss →
  float_add c unix_now (prm_streamtick c) = unix_now →
  ∀ fuel, simulate_in c unix_end fuel unix_now pending ss =
            Unfinished unix_now pending ss.
Proof.
  intros Hle Hcatch Hcheck Hadd. induction fuel as [|fuel IH]; [done|].
  cbn [simulate_in]. destruct (Z.leb_spec unix_now unix_end); [|lia].
  rewrite Hcatch. cbn [fst snd]. by rewrite Hcheck, Hadd.
Qed.

Section Advancing.

Variables lo hi : Z.
Hypothesis step_advances : advancing c lo hi.

(** The cursor passes [hi] within [hi - unix_now + 1] turns. *)
Lemma simulate_in_ends n : ∀ unix_now pending ss,
  lo ≤ unix_now → (Z.to_nat (hi - unix_now + 1) ≤ n)%nat →
  is_unfinished (simulate_in c hi (S n) unix_now pending ss) = false.
Proof.
  induction n as [|n IH]; intros unix_now pending ss Hlo Hn.
  - rewrite simulate_in_stop; [done|lia].
  - cbn [simulate_in]. destruct (Z.leb_spec unix_now hi); [|done].
    destruct (check_sensors_in c unix_now _); [|done].
    pose proof (step_advances unix_now Hlo ltac:(done)).
    apply IH; lia.
Qed.




End Advancing.

End ReplayIn.

Lemma last_elem_of {A} (d : A) (l : list A) : List.last l d ∈ d :: l.
Proof.
  apply elem_of_cons.
  induction l as [|x l IH]; [by left|].
  destruct l as [|y l]; [right; apply list_elem_of_here|].
  destruct IH as [IH|IH]; [by left|right; by apply list_elem_of_further].
Qed.

Lemma last_cons_default {A} (l : list A) : ∀ x d, List.last (x :: l) d = List.last l x.
Proof.
  induction l as [|y l IH]; intros x d; [done|].
  change (List.last (x :: y :: l) d) with (List.last (y :: l) d).
  by rewrite !IH.
Qed.

Lemma last_default {A} (d : A) (l : list A) : last (d :: l) = Some (List.last l d).
Proof.
  revert d. induction l as [|x l IH]; intros d; [done|].
  by rewrite last_cons_cons, IH, last_cons_default.
Qed.

Lemma in_time_order_last first rest :
  in_time_order (first :: rest) →
  updateTime first ≤ updateTime (List.last rest first).
Proof.
  intros Hsorted. apply in_time_order_strong in Hsorted.
  apply StronglySorted_inv in Hsorted as [_ Hall].
  pose proof (last_elem_of first rest) as Hin.
  apply elem_of_cons in Hin as [->|Hin]; [lia|].
  rewrite Forall_forall in Hall. by apply Hall.
Qed.



(** The small replay makes the eleven turns at the cursors 0 to 10, and
    its sensor commits the tick of ConnA and ConnB at cursor 4. *)
Example steady_replay :
  cursors steady 10 12 0 = [0; 1; 2; 3; 4; 5; 6; 7; 8; 9; 10] ∧
  (unixtime <$> sensors_of (run_history_in steady replay_history replay_sensors 12))
    = [[None; Some 4]] ∧
  cursors steady 110 12 100 =
    [100; 101; 102; 103; 104; 105; 106; 107; 108; 109; 110].
Proof. split_and!; vm_compute; reflexivity. Qed.


(** The same with a positive step that the sum rounds away: floats that
    lie 8 apart, and a step of 3. *)
Example replay_with_rounded_step_never_ends :
  0 < prm_streamtick coarse ∧
  ∀ fuel, run_history_in coarse replay_history replay_sensors fuel =
            Unfinished 0 replay_history replay_sensors.
Proof.
  split; [done|].
  apply (simulate_in_stuck coarse 10 0 replay_history replay_sensors).
  - lia.
  - vm_compute. reflexivity.
  - vm_compute. reflexivity.
  - reflexivity.
Qed.

(** ** Times of the committed ticks *)

Section Times.

Variable p : Params.
Hypothesis step_positive : 0 < streamtick p.

Implicit Types (s : Sensor) (ss : list Sensor).

Lemma commit_event_ticks s event :
  unixtime (state_of (commit_event s event)) = unixtime s ∧
  n_events (state_of (commit_event s event)) = n_events s.
Proof.
  unfold commit_event, register_ccon, append_rssi.
  repeat (case_match; simplify_eq/=; try done).
Qed.

Lemma commit_events_ticks events : ∀ s,
  unixtime (state_of (commit_events events s >>= finish_update)) = unixtime s ∧
  n_events (state_of (commit_events events s >>= finish_update)) = n_events s.
Proof.
  induction events as [|event events IH]; intros s.
  - simpl. unfold finish_update. by case_match.
  - simpl. pose proof (commit_event_ticks s event) as [Hu Hn].
    destruct (commit_event s event) as [s1|e s1]; simpl in *.
    + destruct (IH s1) as [-> ->]. done.
    + done.
Qed.

(** Whatever its outcome, [update_event_data] has either left the times
    alone or appended the call time and counted one tick. *)
Lemma update_event_data_ticks s t :
  (unixtime (state_of (update_event_data s t)) = unixtime s ∧
   n_events (state_of (update_event_data s t)) = n_events s) ∨
  (unixtime (state_of (update_event_data s t)) = unixtime s ++ [Some t] ∧
   n_events (state_of (update_event_data s t)) = S (n_events s)).
Proof.
  destruct (decide (event_buffer s = [])) as [Hnil|Hne].
  - left. by rewrite update_event_data_empty.
  - right. rewrite update_event_data_unfold by done.
    by destruct (commit_events_ticks (event_buffer s) (opened s t)) as [-> ->].
Qed.

Lemma tick_shape_bound b b' s : b ≤ b' → tick_shape b s → tick_shape b' s.
Proof.
  intros Hle (ts & Hts & Hsorted & Hbound & Hlen).
  exists ts. split_and!; [done..| |done].
  eapply Forall_impl; [done|]. simpl. lia.
Qed.

Lemma tick_shape_append b t s s' :
  b ≤ t → tick_shape b s →
  unixtime s' = unixtime s ++ [Some t] → n_events s' = S (n_events s) →
  tick_shape (t + streamtick p) s'.
Proof.
  intros Hle (ts & Hts & Hsorted & Hbound & Hlen) Hu Hn.
  exists (ts ++ [t]). split_and!.
  - rewrite Hu, Hts, fmap_app. reflexivity.
  - apply StronglySorted_app_2; [|done|repeat constructor].
    intros a c Ha Hc. apply list_elem_of_singleton in Hc as ->.
    rewrite Forall_forall in Hbound. specialize (Hbound a Ha). lia.
  - apply Forall_app. split.
    + eapply Forall_impl; [done|]. simpl. lia.
    + apply Forall_singleton. lia.
  - rewrite Hu, length_app, Hn, Hlen. simpl. lia.
Qed.

Lemma check_sensor_ticks unix_now s :
  tick_shape unix_now s →
  tick_shape (unix_now + streamtick p) (state_of (check_sensor p unix_now s)).
Proof.
  intros Hs. unfold check_sensor.
  destruct (settled p unix_now s).
  - destruct (update_event_data_ticks s unix_now) as [[Hu Hn]|[Hu Hn]].
    + apply (tick_shape_bound unix_now); [lia|].
      destruct Hs as (ts & Hts & ? & ? & Hlen). exists ts.
      rewrite Hu, Hn. done.
    + by eapply (tick_shape_append unix_now).
  - destruct (timed_out p unix_now s); simpl.
    + by eapply (tick_shape_append unix_now).
    + apply (tick_shape_bound unix_now); [lia|done].
Qed.

Lemma check_sensors_ticks unix_now ss :
  Forall (tick_shape unix_now) ss →
  Forall (tick_shape (unix_now + streamtick p))
    (checked_sensors (check_sensors p unix_now ss)).
Proof.
  induction 1 as [|s ss Hs Hss IH]; simpl; [done|].
  pose proof (check_sensor_ticks unix_now s Hs) as Hs'.
  destruct (check_sensor p unix_now s) as [s'|e s']; simpl in *.
  - destruct (check_sensors p unix_now ss); simpl in *; by constructor.
  - constructor; [done|].
    eapply Forall_impl; [done|]. intros x. apply tick_shape_bound. lia.
Qed.

Lemma serve_ticks b event s : tick_shape b s → tick_shape b (serve event s).
Proof. unfold serve. by case_bool_decide. Qed.

Lemma new_Sensor_ticks b locations id : tick_shape b (new_Sensor locations id).
Proof. exists []. split_and!; [done|constructor|constructor|done]. Qed.

Lemma sorted_lookup_lt (ts : list Z) :
  StronglySorted Z.lt ts →
  ∀ i j a c, ts !! i = Some a → ts !! j = Some c → (i < j)%nat → a < c.
Proof.
  induction 1 as [|t ts _ IH Hall]; intros i j a c Ha Hc Hij; [done|].
  destruct j as [|j]; [lia|]. simpl in Hc. destruct i as [|i]; simpl in Ha.
  - injection Ha as <-. rewrite Forall_forall in Hall. apply Hall.
    apply list_elem_of_lookup. eauto.
  - apply (IH i j); [done..|lia].
Qed.

Lemma tick_shape_increase b s i j :
  tick_shape b s → (1 ≤ i)%nat → (i < j)%nat → (j < n_events s)%nat →
  ∃ a c, unixtime s !! i = Some (Some a) ∧ unixtime s !! j = Some (Some c) ∧ a < c.
Proof.
  intros (ts & Hts & Hsorted & _ & Hlen) Hi Hij Hj.
  rewrite Hts in Hlen |- *. simpl in Hlen. rewrite length_fmap in Hlen.
  destruct i as [|i]; [lia|]. destruct j as [|j]; [lia|]. simpl.
  destruct (lookup_lt_is_Some_2 ts i) as [a Ha]; [lia|].
  destruct (lookup_lt_is_Some_2 ts j) as [c Hc]; [lia|].
  exists a, c. rewrite !list_lookup_fmap, Ha, Hc. split_and!; [done..|].
  apply (sorted_lookup_lt ts Hsorted i j); [done..|lia].
Qed.

End Times.

(** ** The committed times and the call times *)

Section CallTimes.

Implicit Types (s : Sensor) (calls : list call) (ts : list Z).

(** A flush that returns has appended its call time and counted a tick. *)
Lemma update_event_data_Done_ticks s t s' :
  update_event_data s t = Done s' →
  unixtime s' = unixtime s ++ [Some t] ∧ n_events s' = S (n_events s).
Proof.
  intros Hdone. destruct (decide (event_buffer s = [])) as [Hnil|Hne].
  - by rewrite update_event_data_empty in Hdone.
  - rewrite update_event_data_unfold in Hdone by done.
    pose proof (commit_events_ticks (event_buffer s) (opened s t)) as Hticks.
    by rewrite Hdone in Hticks.
Qed.

Lemma do_call_times c s s' :
  do_call c s = Done s' →
  unixtime s' = unixtime s ++ (Some <$> call_times [c]) ∧
  n_events s' = (n_events s + length (call_times [c]))%nat.
Proof.
  destruct c as [event|t|t]; simpl; intros Hdone.
  - injection Hdone as <-. simpl. rewrite app_nil_r. split; [done|lia].
  - apply update_event_data_Done_ticks in Hdone as [-> ->]. split; [done|lia].
  - injection Hdone as <-. simpl. split; [done|lia].
Qed.

(** The committed times are the call times of the flushes, in call order. *)
Lemma do_calls_times calls : ∀ s s',
  do_calls calls s = Done s' →
  unixtime s' = unixtime s ++ (Some <$> call_times calls) ∧
  n_events s' = (n_events s + length (call_times calls))%nat.
Proof.
  induction calls as [|c calls IH]; intros s s' Hdone; simpl in Hdone.
  - injection Hdone as <-. simpl. rewrite app_nil_r. split; [done|lia].
  - destruct (do_call c s) as [s1|e s1] eqn:Hc; [|done]. simpl in Hdone.
    destruct (do_call_times _ _ _ Hc) as [Hu Hn].
    destruct (IH _ _ Hdone) as [-> ->]. rewrite Hu, Hn.
    assert (call_times (c :: calls) = call_times [c] ++ call_times calls) as ->
      by apply (omap_app _ [c]).
    rewrite fmap_app, length_app, app_assoc. split; [done|lia].
Qed.

(** The states of returning call sequences are the reachable ones. *)
Lemma do_calls_reachable locations id calls : ∀ s s',
  reachable locations id s → do_calls calls s = Done s' →
  reachable locations id s'.
Proof.
  induction calls as [|c calls IH]; intros s s' Hreach Hdone; simpl in Hdone.
  - by injection Hdone as <-.
  - destruct (do_call c s) as [s1|e s1] eqn:Hc; [|done]. simpl in Hdone.
    apply (IH s1); [|done]. destruct c as [event|t|t]; simpl in Hc.
    + injection Hc as <-. by apply reach_new_event_data.
    + by apply (reach_update_event_data _ _ s t).
    + injection Hc as <-. by apply reach_update_empty.
Qed.

Lemma reachable_do_calls locations id s :
  reachable locations id s →
  ∃ calls, do_calls calls (new_Sensor locations id) = Done s.
Proof.
  assert (∀ calls c s0 s1 s2, do_calls calls s0 = Done s1 → do_call c s1 = Done s2 →
            do_calls (calls ++ [c]) s0 = Done s2) as Hsnoc.
  { induction calls as [|c' calls IH]; intros c s0 s1 s2 H1 H2; simpl in *.
    - injection H1 as <-. by rewrite H2.
    - destruct (do_call c' s0) as [s'|e s']; [|done]. simpl in *. by eapply IH. }
  induction 1 as [|s event _ [calls IH]|s t s' _ [calls IH] Hdone|s t _ [calls IH]].
  - by exists [].
  - exists (calls ++ [Ingest event]). by eapply Hsnoc.
  - exists (calls ++ [Flush t]). by eapply Hsnoc.
  - exists (calls ++ [FlushEmpty t]). by eapply Hsnoc.
Qed.

Lemma lookup_lt_sorted ts :
  (∀ i j a c, ts !! i = Some a → ts !! j = Some c → (i < j)%nat → a < c) →
  StronglySorted Z.lt ts.
Proof.
  induction ts as [|t ts IH]; intros Hlt; constructor.
  - apply IH. intros i j a c Ha Hc Hij. apply (Hlt (S i) (S j)); [done..|lia].
  - apply Forall_forall. intros c Hc. apply list_elem_of_lookup in Hc as [j Hj].
    apply (Hlt 0%nat (S j)); [done..|lia].
Qed.

Lemma times_increase_from_1_sorted s ts :
  unixtime s = None :: (Some <$> ts) → n_events s = S (length ts) →
  times_increase_from_1 s ↔ StronglySorted Z.lt ts.
Proof.
  intros Hu Hn. split.
  - intros Hinc. apply lookup_lt_sorted. intros i j a c Ha Hc Hij.
    destruct (Hinc (S i) (S j)) as (a' & c' & Ha' & Hc' & Hlt); [lia..| |].
    + rewrite Hn. apply lookup_lt_Some in Hc. lia.
    + rewrite Hu in Ha', Hc'. simpl in Ha', Hc'.
      rewrite list_lookup_fmap, Ha in Ha'. rewrite list_lookup_fmap, Hc in Hc'.
      simpl in *. congruence.
  - intros Hsorted i j Hi Hij Hj. apply (tick_shape_increase (1 + foldr Z.max 0 ts)); [|done..].
    exists ts. split_and!; [done..| |].
    + clear. induction ts as [|t ts IH]; constructor; simpl; [lia|].
      eapply Forall_impl; [done|]. simpl. lia.
    + rewrite Hu. simpl. by rewrite length_fmap, Hn.
Qed.

End CallTimes.

(** C8, amended: after any sequence of calls that return, entry 0 of
    [unixtime] is the [None] of the constructor and the entries after it
    are the call times of the flushes ([update_event_data] and
    [update_empty]) in call order, [n_events] counting them all; so the
    committed times increase from index 1 on exactly when the flushes
    were called at increasing times. *)
Theorem committed_times_are_call_times locations id calls s :
  do_calls calls (new_Sensor locations id) = Done s →
  unixtime s = None :: (Some <$> call_times calls) ∧
  n_events s = S (length (call_times calls)) ∧
  (times_increase_from_1 s ↔ StronglySorted Z.lt (call_times calls)).
Proof.
  intros Hdone. destruct (do_calls_times _ _ _ Hdone) as [Hu Hn].
  simpl in Hu, Hn. split_and!; [done..|].
  by apply times_increase_from_1_sorted.
Qed.

Lemma committed_times_are_call_times_witness :
  unixtime in_order_after = None :: (Some <$> [2000; 5000; 9000]) ∧
  n_events in_order_after = 4%nat ∧
  (times_increase_from_1 in_order_after ↔ StronglySorted Z.lt [2000; 5000; 9000]).
Proof.
  apply (committed_times_are_call_times topology_A "tag" calls_in_order in_order_after).
  vm_compute. reflexivity.
Defined.

Example in_order_after_times : times_increase_from_1 in_order_after.
Proof.
  apply (times_increase_from_1_sorted _ [2000; 5000; 9000]); [done..|].
  repeat constructor; lia.
Qed.

(** C8 as the design document words it: in the state after
    [calls_in_order] index 0 holds no time to compare, although the
    flushes were called at increasing times; and the sensor takes any
    call time, so after [calls_out_of_order] the times are 5, then 3. *)
Lemma times_of_reachable_states :
  reachable topology_A "tag" in_order_after ∧
  unixtime in_order_after = [None; Some 2000; Some 5000; Some 9000] ∧
  ¬ times_increase in_order_after ∧
  reachable topology_A "tag" out_of_order_after ∧
  unixtime out_of_order_after = [None; Some 5; Some 3] ∧
  ¬ times_increase_from_1 out_of_order_after.
Proof.
  split_and!.
  - apply (do_calls_reachable _ _ calls_in_order (new_Sensor topology_A "tag"));
      [apply reach_new|vm_compute; reflexivity].
  - reflexivity.
  - intros Hinc. destruct (Hinc 0%nat 1%nat) as (a & c & Ha & _);
      [lia|simpl; lia|discriminate Ha].
  - apply (do_calls_reachable _ _ calls_out_of_order (new_Sensor topology_A "tag"));
      [apply reach_new|vm_compute; reflexivity].
  - reflexivity.
  - intros Hinc. destruct (Hinc 1%nat 2%nat) as (a & c & Ha & Hc & Hlt);
      [lia|lia|simpl; lia|].
    simpl in Ha, Hc. injection Ha as <-. injection Hc as <-. lia.
Qed.

(** * Part V: further properties of the code *)

(** ** One tick, one cell *)

Section Cells.

Implicit Types (s : Sensor) (e event : Event) (row : list cell).

Lemma buffered_Some c buffer e :
  buffered c buffer = Some e → e ∈ buffer ∧ ccon_id e = c.
Proof.
  unfold buffered. intros H. apply find_some in H as [Hin Hc].
  split; [by apply list_elem_of_In|]. by apply bool_decide_eq_true in Hc.
Qed.

Lemma buffered_elem_of buffer e :
  NoDup (map ccon_id buffer) → e ∈ buffer → buffered (ccon_id e) buffer = Some e.
Proof.
  unfold buffered. induction buffer as [|e0 buffer IH]; intros Hnd Hin.
  - by apply elem_of_nil in Hin.
  - apply NoDup_cons in Hnd as [Hnin Hnd]. simpl.
    apply elem_of_cons in Hin as [->|Hin].
    + by rewrite bool_decide_eq_true_2.
    + rewrite bool_decide_eq_false_2; [by apply IH|].
      intros Heq. apply Hnin. rewrite Heq. apply list_elem_of_fmap. by exists e.
Qed.

(** The row of a known connector in the buffer, after the whole loop. *)
Lemma commit_events_known events : ∀ s s' e i row,
  committing events s → commit_events events s = Done s' →
  e ∈ events → ccons s !! ccon_id e = Some i → rssi s !! i = Some row →
  ccons s' !! ccon_id e = Some i ∧
  rssi s' !! i = Some (row ++ [Some (signalStrength e)]).
Proof.
  induction events as [|event rest IH]; intros s s' e i row Hcm Hdone Hin Hi Hrow.
  - by apply elem_of_nil in Hin.
  - simpl in Hdone. apply bind_Done in Hdone as (s1 & Hstep & Hrest).
    pose proof (cm_nodup _ _ Hcm) as Hnd. apply NoDup_cons in Hnd as [Hnin Hnd].
    destruct (commit_event_Done _ _ _ _ Hcm Hstep) as (Hcm1 & _ & _ & Hoth).
    apply elem_of_cons in Hin as [->|Hin].
    + rewrite (commit_event_known _ _ _ _ Hi Hrow) in Hstep.
      injection Hstep as <-.
      destruct (commit_events_kept _ _ _ _ Hcm1 Hrest Hnin) as [Hk1 Hk2].
      split; [by rewrite Hk1|]. apply Hk2; [done|]. simpl.
      apply list_lookup_insert_eq. by eapply lookup_lt_Some.
    + assert (ccon_id e ≠ ccon_id event) as Hne.
      { intros Heq. apply Hnin. rewrite <- Heq. apply list_elem_of_fmap. by exists e. }
      destruct (Hoth _ Hne) as [Hk1 Hk2].
      apply (IH s1 s' e i row); [done..|by rewrite Hk1|by apply Hk2].
Qed.

Lemma update_event_data_known s t s' e i row :
  wf s → update_event_data s t = Done s' →
  e ∈ event_buffer s → ccons s !! ccon_id e = Some i → rssi s !! i = Some row →
  ccons s' !! ccon_id e = Some i ∧
  rssi s' !! i = Some (row ++ [Some (signalStrength e)]).
Proof.
  intros Hwf Hdone Hin Hi Hrow.
  assert (event_buffer s ≠ []) as Hne by (intros H; rewrite H in Hin; by apply elem_of_nil in Hin).
  rewrite update_event_data_unfold in Hdone by done.
  apply bind_Done in Hdone as (s2 & Hloop & Hfin).
  pose proof (opened_committing s t Hwf) as Hcm.
  destruct (commit_events_known _ _ _ e i row Hcm Hloop Hin Hi Hrow) as [Hi2 Hrow2].
  destruct (commit_events_Done _ _ _ Hcm Hloop) as (_ & Hfr & _).
  destruct Hfr as (_ & _ & _ & Hn & _).
  apply finish_update_Done in Hfin as (a & _ & ->). fields.
  split; [done|]. unfold pad_rows. rewrite list_lookup_fmap, Hrow2. simpl.
  f_equal. apply pad_row_full. rewrite length_app, Hn. simpl.
  pose proof (wf_rows _ Hwf) as Hr. rewrite Forall_forall in Hr.
  rewrite (Hr row); [lia|]. apply list_elem_of_lookup. eauto.
Qed.

Lemma update_event_data_rows s t s' c i row :
  wf s → update_event_data s t = Done s' →
  ccons s !! c = Some i → rssi s !! i = Some row →
  ccons s' !! c = Some i ∧
  rssi s' !! i = Some (row ++ [Some (appended c (event_buffer s))]).
Proof.
  intros Hwf Hdone Hi Hrow.
  pose proof (update_event_data_Done _ _ _ Hwf Hdone) as Hfl.
  unfold appended.
  destruct (buffered c (event_buffer s)) as [e|] eqn:Hb.
  - apply buffered_Some in Hb as [Hin <-].
    by apply (update_event_data_known s t).
  - assert (c ∉ map ccon_id (event_buffer s)) as Hnin.
    { intros Hin. apply list_elem_of_fmap in Hin as (e & -> & Hin).
      rewrite (buffered_elem_of _ _ (wf_buffer _ Hwf) Hin) in Hb. done. }
    destruct (fl_kept _ _ _ Hfl c Hnin) as [Hk1 Hk2].
    split; [by rewrite Hk1|by apply Hk2].
Qed.

End Cells.

(** X1: for a configuration that names each connector once, in a state
    reached from the constructor by calls that return, a returning
    [update_event_data] only appends: every connector known before keeps
    its index, its row is the old row followed by one cell, the signal
    strength of its buffered event or 0 when it was not heard, the times
    and the maxima grow by one entry, and the time of the last event is
    left as it is. *)
Theorem flush_appends_one_cell locations id s t s' :
  NoDup (concat locations) → reachable locations id s →
  update_event_data s t = Done s' →
  (∀ c i row, ccons s !! c = Some i → rssi s !! i = Some row →
     ccons s' !! c = Some i ∧
     rssi s' !! i = Some (row ++ [Some (appended c (event_buffer s))])) ∧
  unixtime s' = unixtime s ++ [Some t] ∧
  (∃ a, max_rssi s' = max_rssi s ++ [Some a]) ∧
  last_event s' = last_event s.
Proof.
  intros Hnd Hreach Hdone. pose proof (reachable_wf _ _ _ Hnd Hreach) as Hwf.
  pose proof (update_event_data_Done _ _ _ Hwf Hdone) as Hfl.
  split_and!.
  - intros c i row Hi Hrow. by apply (update_event_data_rows s t).
  - apply (fl_unixtime _ _ _ Hfl).
  - destruct (fl_max_rssi _ _ _ Hfl) as (a & _ & Ha). by exists a.
  - apply (fl_last_event _ _ _ Hfl).
Qed.

Lemma flush_appends_one_cell_witness :
  (∀ c i row, ccons heard_C !! c = Some i → rssi heard_C !! i = Some row →
     ccons after_C !! c = Some i ∧
     rssi after_C !! i = Some (row ++ [Some (appended c (event_buffer heard_C))])) ∧
  unixtime after_C = unixtime heard_C ++ [Some 5000] ∧
  (∃ a, max_rssi after_C = max_rssi heard_C ++ [Some a]) ∧
  last_event after_C = last_event heard_C.
Proof.
  apply (flush_appends_one_cell topology_A "tag" heard_C 5000 after_C).
  - apply topology_A_NoDup.
  - apply heard_C_reachable.
  - vm_compute. reflexivity.
Defined.

(** X2: for a configuration that names each connector once, in a state
    reached from the constructor by calls that return, [update_empty]
    appends 0 to every row, [None] to the maxima and the call time to
    the times, counts one tick, and leaves the buffer, the flag and the
    time of the last event as they are. *)
Theorem empty_tick_appends_zero locations id s t :
  NoDup (concat locations) → reachable locations id s →
  rssi (update_empty s t) = (λ row, row ++ [Some 0]) <$> rssi s ∧
  max_rssi (update_empty s t) = max_rssi s ++ [None] ∧
  unixtime (update_empty s t) = unixtime s ++ [Some t] ∧
  n_events (update_empty s t) = S (n_events s) ∧
  tick_location (update_empty s t) (n_events s) = None ∧
  event_buffer (update_empty s t) = event_buffer s ∧
  buffering (update_empty s t) = buffering s ∧
  last_event (update_empty s t) = last_event s.
Proof.
  intros Hnd Hreach. pose proof (reachable_wf _ _ _ Hnd Hreach) as Hwf.
  split_and!; try done.
  - simpl. unfold pad_rows. apply Forall_fmap_ext_1.
    eapply Forall_impl; [apply (wf_rows _ Hwf)|].
    intros row Hlen. simpl in Hlen. apply pad_row_short; lia.
  - unfold tick_location. simpl.
    rewrite lookup_app_r by (rewrite (wf_max_rssi _ Hwf); lia).
    rewrite (wf_max_rssi _ Hwf), Nat.sub_diag. done.
Qed.

Lemma empty_tick_appends_zero_witness :
  rssi (update_empty heard_C 9000) = (λ row, row ++ [Some 0]) <$> rssi heard_C ∧
  max_rssi (update_empty heard_C 9000) = max_rssi heard_C ++ [None] ∧
  unixtime (update_empty heard_C 9000) = unixtime heard_C ++ [Some 9000] ∧
  n_events (update_empty heard_C 9000) = S (n_events heard_C) ∧
  tick_location (update_empty heard_C 9000) (n_events heard_C) = None ∧
  event_buffer (update_empty heard_C 9000) = event_buffer heard_C ∧
  buffering (update_empty heard_C 9000) = buffering heard_C ∧
  last_event (update_empty heard_C 9000) = last_event heard_C.
Proof.
  apply (empty_tick_appends_zero topology_A "tag" heard_C 9000).
  - apply topology_A_NoDup.
  - apply heard_C_reachable.
Defined.

(** ** What the maximum search records *)

(** The search either keeps its start pair, when no value beats
    [valmax], or returns the first row that holds the greatest value. *)
Lemma max_loop_cases rows : ∀ i argmax valmax a,
  max_loop rows i argmax valmax = inr a →
  (a = argmax ∧ ∀ j row v, rows !! j = Some row → last row = Some (Some v) → v ≤ valmax) ∨
  (∃ k row v, a = i + Z.of_nat k ∧ rows !! k = Some row ∧
     last row = Some (Some v) ∧ valmax < v ∧
     ∀ j row' w, rows !! j = Some row' → last row' = Some (Some w) →
       w ≤ v ∧ ((j < k)%nat → w < v)).
Proof.
  induction rows as [|row0 rows IH]; intros i argmax valmax a Hloop; simpl in Hloop.
  - left. split; [congruence|]. intros j row v Hj. by rewrite lookup_nil in Hj.
  - destruct (last row0) as [[v0|]|] eqn:Hv0; try done.
    destruct (Z.gtb_spec v0 valmax) as [Hgt|Hle].
    + destruct (IH _ _ _ _ Hloop) as [[-> Hall]|(k & row & v & -> & Hk & Hv & Hlt & Hmax)].
      * right. exists 0%nat, row0, v0. split_and!; [lia|done..|].
        intros [|j] row' w Hj Hw; simpl in Hj.
        -- injection Hj as <-. rewrite Hv0 in Hw. injection Hw as <-. lia.
        -- split; [by eapply Hall|lia].
      * right. exists (S k), row, v. split_and!; [lia|done..|lia|].
        intros [|j] row' w Hj Hw; simpl in Hj.
        -- injection Hj as <-. rewrite Hv0 in Hw. injection Hw as <-. lia.
        -- destruct (Hmax j row' w Hj Hw) as [? Hl]. split; [done|]. intros ?. apply Hl. lia.
    + destruct (IH _ _ _ _ Hloop) as [[-> Hall]|(k & row & v & -> & Hk & Hv & Hlt & Hmax)].
      * left. split; [done|]. intros [|j] row v Hj Hv; simpl in Hj.
        -- injection Hj as <-. rewrite Hv0 in Hv. injection Hv as <-. lia.
        -- by eapply Hall.
      * right. exists (S k), row, v. split_and!; [lia|done..|].
        intros [|j] row' w Hj Hw; simpl in Hj.
        -- injection Hj as <-. rewrite Hv0 in Hw. injection Hw as <-. lia.
        -- destruct (Hmax j row' w Hj Hw) as [? Hl]. split; [done|]. intros ?. apply Hl. lia.
Qed.

(** X3: the entry a returning [update_event_data] appends to [max_rssi]
    is never out of range: it is -1 when no value just appended exceeds
    -1, and otherwise the index of the first row that holds the greatest
    value just appended. *)
Theorem recorded_maximum s t s' :
  update_event_data s t = Done s' →
  ∃ a, max_rssi s' = max_rssi s ++ [Some a] ∧
    ((a = -1 ∧
      ∀ i row v, rssi s' !! i = Some row → last row = Some (Some v) → v ≤ -1) ∨
     (∃ k v, a = Z.of_nat k ∧ (k < length (rssi s'))%nat ∧ -1 < v ∧
        greatest_first_at s' k v)).
Proof.
  intros Hdone. apply update_event_data_max in Hdone as (a & Ha & Hmax & _).
  exists a. split; [done|].
  destruct (max_loop_cases _ _ _ _ _ Ha) as [[-> Hall]|(k & row & v & -> & Hk & Hv & Hlt & Hgr)].
  - left. split; [done|]. apply Hall.
  - right. exists k, v. split_and!; [lia|by eapply lookup_lt_Some|done|].
    split; [by exists row|done].
Qed.

Lemma recorded_maximum_witness :
  ∃ a, max_rssi after_C = max_rssi heard_C ++ [Some a] ∧
    ((a = -1 ∧
      ∀ i row v, rssi after_C !! i = Some row → last row = Some (Some v) → v ≤ -1) ∨
     (∃ k v, a = Z.of_nat k ∧ (k < length (rssi after_C))%nat ∧ -1 < v ∧
        greatest_first_at after_C k v)).
Proof.
  apply (recorded_maximum heard_C 5000 after_C). vm_compute. reflexivity.
Defined.

(** ** Serving an event twice *)

Lemma overwrite_overwrite event buffer :
  overwrite event (overwrite event buffer) = overwrite event buffer.
Proof.
  unfold overwrite. rewrite map_map. apply map_ext. intros e.
  destruct (same_ccon e event) eqn:E; [|by rewrite E].
  unfold same_ccon. by rewrite bool_decide_eq_true_2.
Qed.

Lemma overwrite_snoc event buffer :
  overwrite event (buffer ++ [event]) = overwrite event buffer ++ [event].
Proof.
  unfold overwrite. rewrite map_app. simpl.
  unfold same_ccon. by rewrite bool_decide_eq_true_2.
Qed.

Lemma exists_in_new_event_data s event :
  exists_in event (event_buffer (new_event_data s event)) = true.
Proof.
  apply exists_in_ids. rewrite new_event_data_ids.
  destruct (exists_in event (event_buffer s)) eqn:E.
  - by apply exists_in_ids.
  - apply elem_of_app. right. apply list_elem_of_here.
Qed.

(** X4: serving the same event twice in a row is the same as serving it
    once. *)
Theorem new_event_data_twice s event :
  new_event_data (new_event_data s event) event = new_event_data s event.
Proof.
  unfold new_event_data at 1.
  rewrite exists_in_new_event_data.
  assert (overwrite event (event_buffer (new_event_data s event))
          = event_buffer (new_event_data s event)) as ->.
  { simpl. destruct (exists_in event (event_buffer s)).
    - apply overwrite_overwrite.
    - by rewrite overwrite_snoc, overwrite_overwrite. }
  reflexivity.
Qed.

(** ** Configured connectors *)

Section Configured.

Implicit Types (locations : list location) (loc : location) (s : Sensor).

Lemma add_location_ids i acc loc :
  (add_location i acc loc).1 = acc.1 ++ replicate (length loc) i.
Proof.
  unfold add_location. revert acc.
  induction loc as [|c loc IH]; intros acc; simpl.
  - by rewrite app_nil_r.
  - rewrite IH. simpl. by rewrite <- app_assoc.
Qed.

Lemma location_map_loop_ids locations : ∀ i acc,
  (location_map_loop i locations acc).1 = acc.1 ++ location_ids i locations.
Proof.
  induction locations as [|loc rest IH]; intros i acc; simpl.
  - by rewrite app_nil_r.
  - by rewrite IH, add_location_ids, <- app_assoc.
Qed.

Lemma lookup_row_of locations : ∀ k loc j c,
  locations !! k = Some loc → loc !! j = Some c →
  concat locations !! row_of locations k j = Some c.
Proof.
  unfold row_of.
  induction locations as [|loc0 rest IH]; intros k loc j c Hk Hj; [done|].
  destruct k as [|k]; simpl in *.
  - injection Hk as ->. rewrite lookup_app_l; [done|]. by eapply lookup_lt_Some.
  - rewrite length_app, <- Nat.add_assoc, lookup_app_r by lia.
    replace (length loc0 + _ - length loc0)%nat
      with (length (concat (take k rest)) + j)%nat by lia.
    by eapply IH.
Qed.

Lemma lookup_location_ids locations : ∀ i k loc j,
  locations !! k = Some loc → (j < length loc)%nat →
  location_ids i locations !! row_of locations k j = Some (i + k)%nat.
Proof.
  unfold row_of.
  induction locations as [|loc0 rest IH]; intros i k loc j Hk Hj; [done|].
  destruct k as [|k]; simpl in *.
  - injection Hk as ->. rewrite lookup_app_l by (by rewrite length_replicate).
    rewrite Nat.add_0_r. by apply lookup_replicate_2.
  - rewrite length_app, <- Nat.add_assoc.
    rewrite lookup_app_r by (rewrite length_replicate; lia).
    rewrite length_replicate.
    replace (length loc0 + _ - length loc0)%nat
      with (length (concat (take k rest)) + j)%nat by lia.
    rewrite (IH (S i) k loc j Hk Hj). f_equal. lia.
Qed.

Lemma commit_event_location_map s event :
  location_map s `prefix_of` location_map (state_of (commit_event s event)).
Proof.
  unfold commit_event, register_ccon, append_rssi.
  repeat (case_match; simplify_eq/=; try done); by apply prefix_app_r.
Qed.

Lemma commit_events_location_map events : ∀ s,
  location_map s `prefix_of`
    location_map (state_of (commit_events events s >>= finish_update)).
Proof.
  induction events as [|event events IH]; intros s.
  - simpl. unfold finish_update. by case_match.
  - simpl. pose proof (commit_event_location_map s event) as Hp.
    destruct (commit_event s event) as [s1|e s1]; simpl in *; [|done].
    by etrans.
Qed.

Lemma update_event_data_location_map s t :
  location_map s `prefix_of` location_map (state_of (update_event_data s t)).
Proof.
  destruct (decide (event_buffer s = [])) as [Hnil|Hne].
  - by rewrite update_event_data_empty.
  - rewrite update_event_data_unfold by done.
    apply (commit_events_location_map (event_buffer s) (opened s t)).
Qed.

End Configured.

(** X5: for a configuration that names each connector once, the
    [j]-th connector of the [k]-th location is given the row that counts
    the connectors listed before it, and in every state between calls it
    still has that row and the row still belongs to location [k]. *)
Theorem configured_connector_keeps_location locations id s k loc j c :
  NoDup (concat locations) → reachable locations id s →
  locations !! k = Some loc → loc !! j = Some c →
  ccons s !! c = Some (row_of locations k j) ∧
  location_map s !! row_of locations k j = Some k ∧
  (row_of locations k j < length (rssi s))%nat.
Proof.
  intros Hnd Hreach Hk Hj.
  induction Hreach as [|s event Hreach IH|s t s' Hreach IH Hdone|s t Hreach IH].
  - destruct (initial_ccons_spec _ Hnd) as (Hsz & Hlen & Hrows & Hlk).
    simpl. unfold initial_ccons, initial_location_map. split_and!.
    + apply Hlk. by eapply lookup_row_of.
    + rewrite location_map_loop_ids. simpl.
      rewrite (lookup_location_ids locations 0 k loc j); [done..|].
      by eapply lookup_lt_Some.
    + rewrite Hlen. eapply lookup_lt_Some. by eapply lookup_row_of.
  - done.
  - destruct IH as (Hc & Hl & Hlt).
    pose proof (reachable_wf _ _ _ Hnd Hreach) as Hwf.
    apply lookup_lt_is_Some in Hlt as [row Hrow].
    destruct (update_event_data_rows _ _ _ _ _ _ Hwf Hdone Hc Hrow) as [Hc' Hrow'].
    split_and!; [done| |by eapply lookup_lt_Some].
    pose proof (update_event_data_location_map s t) as Hp.
    rewrite Hdone in Hp. simpl in Hp.
    by eapply prefix_lookup_Some.
  - destruct IH as (Hc & Hl & Hlt). split_and!; [done..|].
    simpl. unfold pad_rows. by rewrite length_fmap.
Qed.

Lemma configured_connector_keeps_location_witness :
  ccons after_C !! "ConnB"%string = Some (row_of topology_A 0 1) ∧
  location_map after_C !! row_of topology_A 0 1 = Some 0%nat ∧
  (row_of topology_A 0 1 < length (rssi after_C))%nat.
Proof.
  apply (configured_connector_keeps_location topology_A "tag" after_C 0
           ["ConnA"; "ConnB"]%string 1 "ConnB"%string).
  - apply topology_A_NoDup.
  - apply (reach_update_event_data _ _ heard_C 5000); [apply heard_C_reachable|].
    vm_compute. reflexivity.
  - reflexivity.
  - reflexivity.
Defined.

(** ** How [update_event_data] ends *)

Section Outcomes.

Implicit Types (s : Sensor) (e event : Event).

Lemma commit_event_max_rssi s event :
  max_rssi (state_of (commit_event s event)) = max_rssi s.
Proof.
  unfold commit_event, register_ccon, append_rssi.
  repeat (case_match; simplify_eq/=; try done).
Qed.

Lemma commit_events_max_rssi events : ∀ s,
  max_rssi (state_of (commit_events events s)) = max_rssi s.
Proof.
  induction events as [|event events IH]; intros s; [done|].
  simpl. pose proof (commit_event_max_rssi s event) as Hm.
  destruct (commit_event s event) as [s1|e s1]; simpl in *; [|done].
  by rewrite IH.
Qed.

(** An unknown connector in the buffer with the unknown id unset stops
    the loop with [AttributeError]. *)
Lemma commit_events_unset events : ∀ s,
  committing events s → location_map_unknown s = None →
  (∃ e, e ∈ events ∧ ccons s !! ccon_id e = None) →
  ∃ s', commit_events events s = Raised AttributeError s'.
Proof.
  induction events as [|event rest IH]; intros s Hcm Hunk (e & Hin & Hnew).
  - by apply elem_of_nil in Hin.
  - simpl. destruct (ccons s !! ccon_id event) as [ix|] eqn:Hix.
    + destruct (commit_event_returns _ _ _ Hcm) as [s1 Hstep]; [congruence|].
      destruct (commit_event_Done _ _ _ _ Hcm Hstep) as (Hcm1 & Hfr & _ & Hoth).
      rewrite Hstep. simpl. apply IH; [done| |].
      * destruct Hfr as (_&_&_&_&_&_&_&->). done.
      * exists e. apply elem_of_cons in Hin as [->|Hin]; [congruence|].
        split; [done|].
        assert (ccon_id e ≠ ccon_id event) as Hne by congruence.
        destruct (Hoth _ Hne) as [-> _]. done.
    + destruct (commit_event_unset _ _ Hix Hunk) as [s1 ->]. by exists s1.
Qed.

End Outcomes.

(** X6: for a configuration that names each connector once, in a state
    reached from the constructor by calls that return,
    [update_event_data] ends in one of three ways. On an empty buffer it raises [IndexError] and changes
    nothing. When the buffer holds a connector that is not known and
    [location_map_unknown] is unset, it raises [AttributeError] with the
    tick half written: the time is appended and the tick counted, but no
    maximum is appended. In every other case it returns. *)
Theorem update_event_data_outcomes locations id s t :
  NoDup (concat locations) → reachable locations id s →
  (event_buffer s = [] → update_event_data s t = Raised IndexError s) ∧
  (location_map_unknown s = None →
   (∃ e, e ∈ event_buffer s ∧ ccons s !! ccon_id e = None) →
   ∃ s', update_event_data s t = Raised AttributeError s' ∧
         unixtime s' = unixtime s ++ [Some t] ∧
         n_events s' = S (n_events s) ∧
         max_rssi s' = max_rssi s) ∧
  (event_buffer s ≠ [] →
   (∀ e, e ∈ event_buffer s → ccons s !! ccon_id e = None →
         location_map_unknown s ≠ None) →
   ∃ s', update_event_data s t = Done s').
Proof.
  intros Hnd Hreach. pose proof (reachable_wf _ _ _ Hnd Hreach) as Hwf.
  split_and!.
  - apply update_event_data_empty.
  - intros Hunk (e & Hin & Hnew).
    assert (event_buffer s ≠ []) as Hne
      by (intros H; rewrite H in Hin; by apply elem_of_nil in Hin).
    pose proof (opened_committing s t Hwf) as Hcm.
    destruct (commit_events_unset _ _ Hcm Hunk) as [s' Hloop]; [by exists e|].
    exists s'. rewrite update_event_data_unfold, Hloop by done. simpl.
    pose proof (commit_events_ticks (event_buffer s) (opened s t)) as [Hu Hn].
    pose proof (commit_events_max_rssi (event_buffer s) (opened s t)) as Hm.
    rewrite Hloop in Hu, Hn, Hm. simpl in *. done.
  - intros Hne Hreg. by apply update_event_data_returns.
Qed.

(** A sensor without any configured connector that has heard ConnC. *)
Lemma update_event_data_outcomes_witness :
  ∃ s', update_event_data unset_heard_C 5000 = Raised AttributeError s' ∧
        unixtime s' = unixtime unset_heard_C ++ [Some 5000] ∧
        n_events s' = S (n_events unset_heard_C) ∧
        max_rssi s' = max_rssi unset_heard_C.
Proof.
  apply (update_event_data_outcomes [[]; []] "tag" unset_heard_C 5000).
  - simpl. apply NoDup_nil_2.
  - assert (unset_heard_C = new_event_data (new_Sensor [[]; []] "tag") event_C) as ->
      by (vm_compute; reflexivity).
    apply reach_new_event_data, reach_new.
  - reflexivity.
  - exists event_C. split; [apply list_elem_of_here|reflexivity].
Defined.

(** ** Routing of events *)

Lemma has_slash_app dir name :
  has_slash (dir +:+ String "/" name) = true.
Proof.
  induction dir as [|c dir IH]; [done|].
  simpl. rewrite IH. by destruct (Ascii.eqb c "/").
Qed.

Lemma basename_app dir name :
  has_slash name = false → basename (dir +:+ String "/" name) = name.
Proof.
  intros Hname. induction dir as [|c dir IH]; simpl.
  - by rewrite Hname.
  - by rewrite has_slash_app.
Qed.

Lemma serve_sensor_id event s : sensor_id (serve event s) = sensor_id s.
Proof. unfold serve. by case_bool_decide. Qed.

(** X7: an event whose target is a path ending in the device id [name]
    is served to the sensors of id [name] and to no other; the sensors
    keep their order and ids; and when no sensor has that id the event is
    dropped. *)
Theorem event_goes_to_its_device dir name event sensors :
  has_slash name = false → targetName event = dir +:+ "/" +:+ name →
  director_new_event_data sensors event =
    ((λ s, if bool_decide (sensor_id s = name) then new_event_data s event else s)
       <$> sensors) ∧
  (sensor_id <$> director_new_event_data sensors event) = (sensor_id <$> sensors) ∧
  ((∀ s, s ∈ sensors → sensor_id s ≠ name) →
     director_new_event_data sensors event = sensors).
Proof.
  intros Hname Htarget.
  assert (basename (targetName event) = name) as Hbase.
  { rewrite Htarget. change ("/" +:+ name)%string with (String "/" name).
    by apply basename_app. }
  unfold director_new_event_data, serve. rewrite Hbase. split_and!.
  - done.
  - rewrite <- list_fmap_compose. apply list_fmap_ext. intros i s _. simpl.
    by case_bool_decide.
  - intros Hnone. rewrite <- (list_fmap_id sensors) at 2.
    apply Forall_fmap_ext_1, Forall_forall. intros s Hs.
    rewrite bool_decide_eq_false_2; [done|]. by apply Hnone.
Qed.

Lemma event_goes_to_its_device_witness :
  director_new_event_data replay_sensors event_of_tag =
    ((λ s, if bool_decide (sensor_id s = "tag"%string)
           then new_event_data s event_of_tag else s) <$> replay_sensors) ∧
  (sensor_id <$> director_new_event_data replay_sensors event_of_tag)
    = (sensor_id <$> replay_sensors) ∧
  ((∀ s, s ∈ replay_sensors → sensor_id s ≠ "tag"%string) →
     director_new_event_data replay_sensors event_of_tag = replay_sensors).
Proof.
  apply (event_goes_to_its_device "projects/p/devices" "tag" event_of_tag replay_sensors);
    reflexivity.
Defined.

(** ** Silence *)

Lemma check_sensor_idle p now s :
  buffering s = false → timed_out p now s = true →
  check_sensor p now s = Done (update_empty s now).
Proof.
  intros Hidle Hout. unfold check_sensor, settled. by rewrite Hidle, Hout.
Qed.

Lemma timed_out_later p now now' s :
  timed_out p now s = true → now ≤ now' → timed_out p now' s = true.
Proof.
  unfold timed_out. intros H Hle.
  destruct (Z.gtb_spec (now - last_event s) (timeout p)); [|done].
  destruct (Z.gtb_spec (now' - last_event s) (timeout p)); [done|lia].
Qed.

(** X8: [update_empty] does not touch [last_event], so a sensor that is
    not buffering and has timed out at the cursor [now] commits an empty
    tick at every later cursor as well, one per turn, for as long as no
    event is served. *)
Theorem silent_sensor_ticks_every_turn p now nows s :
  buffering s = false → timed_out p now s = true →
  Forall (λ now', now ≤ now') nows →
  silent_turns p nows s = foldl update_empty s nows ∧
  n_events (silent_turns p nows s) = (n_events s + length nows)%nat ∧
  max_rssi (silent_turns p nows s) = max_rssi s ++ replicate (length nows) None.
Proof.
  intros Hidle Hout Hnows. unfold silent_turns. revert s Hidle Hout.
  induction Hnows as [|now' nows Hle _ IH]; intros s Hidle Hout; simpl.
  - split_and!; [done|lia|by rewrite app_nil_r].
  - rewrite (check_sensor_idle p now' s Hidle (timed_out_later _ _ _ _ Hout Hle)).
    simpl. destruct (IH (update_empty s now')) as (-> & -> & ->); [done..|].
    split_and!; [done|simpl; lia|].
    simpl. by rewrite <- app_assoc.
Qed.

Lemma silent_sensor_ticks_every_turn_witness :
  silent_turns replay_params [1000; 1001; 1005] after_A = foldl update_empty after_A [1000; 1001; 1005] ∧
  n_events (silent_turns replay_params [1000; 1001; 1005] after_A)
    = (n_events after_A + length [1000; 1001; 1005])%nat ∧
  max_rssi (silent_turns replay_params [1000; 1001; 1005] after_A)
    = max_rssi after_A ++ replicate (length [1000; 1001; 1005]) None.
Proof.
  apply (silent_sensor_ticks_every_turn replay_params 1000 [1000; 1001; 1005] after_A).
  - reflexivity.
  - reflexivity.
  - repeat constructor; lia.
Defined.

(** ** The end of the history *)

Section LastEvents.

Variable p : Params.
Variable unix_end : Z.

Implicit Types (pending : list Event) (ss : list Sensor).





End LastEvents.



(** ** Sensors that no check can make raise *)

Section Sound.

Implicit Types (s : Sensor) (ss : list Sensor) (locations : list location).

Lemma add_location_unknown i acc (loc : location) :
  acc.2 ≠ None ∨ loc ≠ [] → (add_location i acc loc).2 ≠ None.
Proof.
  intros [Hacc|Hloc].
  - unfold add_location. destruct loc as [|c loc _] using rev_ind; [done|].
    by rewrite foldl_snoc.
  - by rewrite add_location_nonempty.
Qed.

Lemma location_map_loop_unknown locations : ∀ i acc,
  acc.2 ≠ None ∨ concat locations ≠ [] →
  (location_map_loop i locations acc).2 ≠ None.
Proof.
  induction locations as [|loc rest IH]; intros i acc Hor; simpl.
  - by destruct Hor.
  - apply IH. destruct Hor as [Hacc|Hne].
    + left. apply add_location_unknown. by left.
    + destruct loc as [|c loc]; [by right|].
      left. apply add_location_unknown. by right.
Qed.

Lemma new_Sensor_sound locations id :
  NoDup (concat locations) → concat locations ≠ [] →
  sound (new_Sensor locations id).
Proof.
  intros Hnd Hne. split; [by apply new_Sensor_wf|].
  simpl. apply location_map_loop_unknown. by right.
Qed.

Lemma serve_sound event s : sound s → sound (serve event s).
Proof.
  intros [Hwf Hunk]. unfold serve. case_bool_decide; [|done].
  split; [by apply new_event_data_wf|done].
Qed.

Lemma director_new_event_data_sound event ss :
  Forall sound ss →
  Forall sound (director_new_event_data ss event) ∧
  (sensor_id <$> director_new_event_data ss event) = (sensor_id <$> ss).
Proof.
  intros Hss. unfold director_new_event_data. split.
  - apply Forall_fmap. eapply Forall_impl; [done|]. intros s. apply serve_sound.
  - rewrite <- list_fmap_compose. apply list_fmap_ext. intros i s _.
    apply serve_sensor_id.
Qed.

Lemma catch_up_sound unix_now pending : ∀ ss,
  Forall sound ss →
  Forall sound (catch_up unix_now pending ss).2 ∧
  (sensor_id <$> (catch_up unix_now pending ss).2) = (sensor_id <$> ss).
Proof.
  induction pending as [|event pending IH]; intros ss Hss; [done|].
  simpl. destruct (updateTime event <? unix_now); [|done].
  destruct (director_new_event_data_sound event ss Hss) as [Hs Hid].
  destruct (IH _ Hs) as [Hs' Hid']. split; [done|congruence].
Qed.

End Sound.

(** ** The runs of [Params] among the runs of [Setup] *)

Section Exact.

Variable p : Params.

Lemma check_sensor_in_exact unix_now s :
  check_sensor_in (exact p) unix_now s = check_sensor p unix_now s.
Proof. done. Qed.

Lemma check_sensors_in_exact unix_now ss :
  check_sensors_in (exact p) unix_now ss = check_sensors p unix_now ss.
Proof.
  induction ss as [|s ss IH]; [done|].
  cbn [check_sensors_in check_sensors]. by rewrite check_sensor_in_exact, IH.
Qed.

Lemma simulate_in_exact unix_end fuel : ∀ unix_now pending ss,
  simulate_in (exact p) unix_end fuel unix_now pending ss =
    simulate p unix_end fuel unix_now pending ss.
Proof.
  induction fuel as [|fuel IH]; intros unix_now pending ss; [done|].
  cbn [simulate_in simulate]. destruct (unix_now <=? unix_end); [|done].
  rewrite check_sensors_in_exact.
  destruct (check_sensors p unix_now _); [|done]. apply IH.
Qed.

Lemma run_history_in_exact event_history ss fuel :
  run_history_in (exact p) event_history ss fuel =
    run_history p event_history ss fuel.
Proof.
  destruct event_history as [|first rest]; [done|].
  unfold run_history_in, run_history, unix_start, unix_end.
  rewrite last_default. apply simulate_in_exact.
Qed.

Lemma live_in_exact schedule : ∀ ss,
  live_in (exact p) schedule ss = live p schedule ss.
Proof.
  induction schedule as [|a schedule IH]; intros ss; [done|].
  cbn [live_in live]. destruct a as [event|now]; cbn [live_step_in live_step].
  - apply IH.
  - rewrite check_sensors_in_exact. destruct (check_sensors p now ss); [apply IH|done].
Qed.

End Exact.

(** ** Replay and live mode without exception *)

Section SoundIn.

Variable c : Setup.
Variable seconds : Z.
Hypothesis timeout_is_number : args_timeout c = timeout_number seconds.

Implicit Types (s : Sensor) (ss : list Sensor).

Lemma check_sensor_in_sound unix_now s :
  sound s →
  ∃ s', check_sensor_in c unix_now s = Done s' ∧ sound s' ∧
        sensor_id s' = sensor_id s.
Proof.
  intros [Hwf Hunk]. unfold check_sensor_in. rewrite timeout_is_number.
  destruct (settled_in c unix_now s) eqn:Hs.
  - unfold settled_in in Hs. apply andb_true_iff in Hs as [Hs _].
    apply andb_true_iff in Hs as [_ Hlen]. apply Nat.ltb_lt in Hlen.
    destruct (update_event_data_returns s unix_now Hwf) as [s' Hdone].
    { intros H. rewrite H in Hlen. simpl in Hlen. lia. }
    { by intros. }
    exists s'. split; [done|].
    pose proof (update_event_data_Done _ _ _ Hwf Hdone) as Hfl.
    split; [split|].
    + apply (fl_wf _ _ _ Hfl).
    + by rewrite (fl_unknown _ _ _ Hfl).
    + apply (fl_id _ _ _ Hfl).
  - destruct (float_sub c unix_now (last_event s) >? seconds).
    + eexists. split; [done|]. split; [|done].
      split; [by apply update_empty_wf|done].
    + by exists s.
Qed.

Lemma check_sensors_in_sound unix_now ss :
  Forall sound ss →
  ∃ ss', check_sensors_in c unix_now ss = Checked ss' ∧ Forall sound ss' ∧
         (sensor_id <$> ss') = (sensor_id <$> ss).
Proof.
  induction 1 as [|s ss Hs _ (ss' & Hss' & Hall & Hids)]; simpl.
  - by exists [].
  - destruct (check_sensor_in_sound unix_now s Hs) as (s' & -> & Hs' & Hid).
    rewrite Hss'. exists (s' :: ss'). split_and!; [done|by constructor|].
    rewrite !fmap_cons. by rewrite Hid, Hids.
Qed.

Lemma simulate_in_sound unix_end fuel : ∀ unix_now pending ss,
  Forall sound ss →
  (∃ ss', simulate_in c unix_end fuel unix_now pending ss = Finished ss' ∧
          Forall sound ss' ∧ (sensor_id <$> ss') = (sensor_id <$> ss)) ∨
  is_unfinished (simulate_in c unix_end fuel unix_now pending ss) = true.
Proof.
  induction fuel as [|fuel IH]; intros unix_now pending ss Hss; simpl; [by right|].
  destruct (unix_now <=? unix_end).
  - destruct (catch_up_sound unix_now pending ss Hss) as [Hs Hid].
    destruct (check_sensors_in_sound unix_now _ Hs) as (ss' & -> & Hs' & Hid').
    destruct (IH (float_add c unix_now (prm_streamtick c))
                (catch_up unix_now pending ss).1 ss' Hs')
      as [(ss'' & -> & Hs'' & Hid'')|Hun]; [|by right].
    left. exists ss''. split_and!; [done..|congruence].
  - left. by exists ss.
Qed.

Lemma live_in_sound schedule : ∀ ss,
  Forall sound ss →
  ∃ ss', live_in c schedule ss = Checked ss' ∧ Forall sound ss' ∧
         (sensor_id <$> ss') = (sensor_id <$> ss).
Proof.
  induction schedule as [|a schedule IH]; intros ss Hss; simpl.
  - by exists ss.
  - destruct a as [event|now]; simpl.
    + destruct (director_new_event_data_sound event ss Hss) as [Hs Hid].
      destruct (IH _ Hs) as (ss' & -> & Hs' & Hid').
      exists ss'. split_and!; [done..|congruence].
    + destruct (check_sensors_in_sound now ss Hss) as (ss1 & -> & Hs & Hid).
      destruct (IH _ Hs) as (ss' & -> & Hs' & Hid').
      exists ss'. split_and!; [done..|congruence].
Qed.

End SoundIn.

Lemma spawn_devices_sound locations ids :
  NoDup (concat locations) → concat locations ≠ [] →
  Forall sound (spawn_devices locations ids).
Proof.
  intros Hnd Hne. unfold spawn_devices. apply Forall_fmap, Forall_forall.
  intros id _. by apply new_Sensor_sound.
Qed.

Lemma spawn_devices_ids locations ids :
  (sensor_id <$> spawn_devices locations ids) = ids.
Proof.
  unfold spawn_devices. rewrite <- list_fmap_compose.
  rewrite <- (list_fmap_id ids) at 2. by apply list_fmap_ext.
Qed.

(** X10: when [--timeout] is left to its default, the configuration
    names each connector once and at least one connector, and the sum of
    the cursor and the step is a later time for every time from the
    first to the last event's, the replay of a history comes to its end
    without exception, with the sensors it started with, in the same
    order, each in a state in which every row is as long as [n_events]. *)
Theorem replay_finishes c seconds locations ids first rest :
  args_timeout c = timeout_number seconds →
  advancing c (updateTime first) (updateTime (List.last rest first)) →
  NoDup (concat locations) → concat locations ≠ [] →
  ∃ fuel ss,
    run_history_in c (first :: rest) (spawn_devices locations ids) fuel
      = Finished ss ∧
    (sensor_id <$> ss) = ids ∧
    Forall (λ s, Forall (λ row, length row = n_events s) (rssi s) ∧
                 length (unixtime s) = n_events s ∧
                 length (max_rssi s) = n_events s) ss.
Proof.
  intros Htimeout Hadv Hnd Hne.
  pose proof (spawn_devices_sound locations ids Hnd Hne) as Hnew.
  set (lo := updateTime first) in *.
  set (hi := updateTime (List.last rest first)) in *.
  set (n := Z.to_nat (hi - lo + 1)).
  exists (S n). unfold run_history_in. fold lo hi.
  destruct (simulate_in_sound c seconds Htimeout hi (S n) lo (first :: rest) _ Hnew)
    as [(ss & Hfin & Hs & Hid)|Hun].
  - exists ss. split_and!; [done|by rewrite Hid, spawn_devices_ids|].
    eapply Forall_impl; [done|]. intros s [Hwf _]. split_and!; apply Hwf.
  - rewrite (simulate_in_ends c lo hi Hadv) in Hun; [done|lia|lia].
Qed.

Lemma replay_finishes_witness :
  ∃ fuel ss,
    run_history_in steady later_history (spawn_devices topology_A ["tag"%string]) fuel
      = Finished ss ∧
    (sensor_id <$> ss) = ["tag"%string] ∧
    Forall (λ s, Forall (λ row, length row = n_events s) (rssi s) ∧
                 length (unixtime s) = n_events s ∧
                 length (max_rssi s) = n_events s) ss.
Proof.
  apply (replay_finishes steady 30 topology_A ["tag"%string]
           (mkEvent "projects/p/devices/tag" "ConnA" 50 100)
           [ mkEvent "projects/p/devices/tag" "ConnB" 40 101;
             mkEvent "projects/p/devices/other" "ConnA" 70 106;
             mkEvent "projects/p/devices/tag" "ConnA" 60 110 ]).
  - reflexivity.
  - intros unix_now _ _. simpl. lia.
  - apply topology_A_NoDup.
  - discriminate.
Defined.

(** X11: in live mode with [--timeout] left to its default, whatever
    order the listening thread and the main thread take the lock in and
    whatever the clock shows, no check of the sensors raises, for a
    configuration that names each connector once and at least one
    connector; the sensors stay the same in number, order and id, each
    with every row as long as [n_events]. *)
Theorem live_never_raises c seconds locations ids schedule :
  args_timeout c = timeout_number seconds →
  NoDup (concat locations) → concat locations ≠ [] →
  ∃ ss, live_in c schedule (spawn_devices locations ids) = Checked ss ∧
        (sensor_id <$> ss) = ids ∧
        Forall (λ s, Forall (λ row, length row = n_events s) (rssi s) ∧
                     (buffering s = true ↔ event_buffer s ≠ [])) ss.
Proof.
  intros Htimeout Hnd Hne.
  pose proof (spawn_devices_sound locations ids Hnd Hne) as Hnew.
  destruct (live_in_sound c seconds Htimeout schedule _ Hnew) as (ss & Hlive & Hs & Hid).
  exists ss. split_and!; [done|by rewrite Hid, spawn_devices_ids|].
  eapply Forall_impl; [done|]. intros s [Hwf _]. split; apply Hwf.
Qed.

Lemma live_never_raises_witness :
  ∃ ss, live_in coarse live_schedule (spawn_devices topology_A ["tag"%string])
          = Checked ss ∧
        (sensor_id <$> ss) = ["tag"%string] ∧
        Forall (λ s, Forall (λ row, length row = n_events s) (rssi s) ∧
                     (buffering s = true ↔ event_buffer s ≠ [])) ss.
Proof.
  apply (live_never_raises coarse 30 topology_A ["tag"%string] live_schedule).
  - reflexivity.
  - apply topology_A_NoDup.
  - discriminate.
Defined.

(** ** [--timeout] given on the command line *)

(** X20: when [--timeout] is given, [args['timeout']] is a [str], and the
    [elif] of the first sensor that has not settled raises [TypeError].
    The sensors are fresh when the first check runs, so a replay of a
    history in time order stops in its first turn, and so does the live
    mode at the first check it makes before any event is served; no
    sensor has changed. *)
Theorem timeout_given_raises c text locations id ids first rest fuel now schedule :
  args_timeout c = timeout_text text →
  in_time_order (first :: rest) →
  run_history_in c (first :: rest) (spawn_devices locations (id :: ids)) (S fuel)
    = Aborted TypeError (spawn_devices locations (id :: ids)) ∧
  live_in c (Timer now :: schedule) (spawn_devices locations (id :: ids))
    = Failed TypeError (spawn_devices locations (id :: ids)).
Proof.
  intros Htimeout Hsorted.
  assert (∀ unix_now, check_sensors_in c unix_now (spawn_devices locations (id :: ids))
            = Failed TypeError (spawn_devices locations (id :: ids))) as Hcheck.
  { intros unix_now. unfold spawn_devices. rewrite fmap_cons.
    cbn [check_sensors_in]. unfold check_sensor_in, settled_in.
    by rewrite Htimeout. }
  split.
  - pose proof (in_time_order_last _ _ Hsorted) as Hle.
    unfold run_history_in. cbn [simulate_in].
    destruct (Z.leb_spec (updateTime first) (updateTime (List.last rest first)));
      [|lia].
    cbn [catch_up]. rewrite Z.ltb_irrefl. cbn [fst snd]. by rewrite Hcheck.
  - cbn [live_in live_step_in]. by rewrite Hcheck.
Qed.

Lemma timeout_given_raises_witness :
  run_history_in timeout_given later_history
      (spawn_devices topology_A ["tag"; "other"]%string) 12
    = Aborted TypeError (spawn_devices topology_A ["tag"; "other"]%string) ∧
  live_in timeout_given (Timer 3 :: live_schedule)
      (spawn_devices topology_A ["tag"; "other"]%string)
    = Failed TypeError (spawn_devices topology_A ["tag"; "other"]%string).
Proof.
  apply (timeout_given_raises timeout_given "1800" topology_A "tag" ["other"%string]
           (mkEvent "projects/p/devices/tag" "ConnA" 50 100)
           [ mkEvent "projects/p/devices/tag" "ConnB" 40 101;
             mkEvent "projects/p/devices/other" "ConnA" 70 106;
             mkEvent "projects/p/devices/tag" "ConnA" 60 110 ] 11 3 live_schedule).
  - reflexivity.
  - repeat constructor; simpl; lia.
Defined.

(** ** Live mode *)

Section Live.

Variable p : Params.

Implicit Types (s : Sensor) (ss : list Sensor) (schedule : list action).

Lemma check_sensors_params p' unix_now ss :
  buffertime p' = buffertime p → timeout p' = timeout p →
  check_sensors p' unix_now ss = check_sensors p unix_now ss.
Proof.
  intros Hb Ht. induction ss as [|s ss IH]; simpl; [done|].
  unfold check_sensor, settled, timed_out. by rewrite Hb, Ht, IH.
Qed.

Lemma check_sensors_ticks_live unix_now ss :
  Forall (tick_shape unix_now) ss →
  Forall (tick_shape (unix_now + 1)) (checked_sensors (check_sensors p unix_now ss)).
Proof.
  intros Hss.
  rewrite <- (check_sensors_params (mkParams 1 (buffertime p) (timeout p))) by done.
  apply (check_sensors_ticks (mkParams 1 (buffertime p) (timeout p))); [simpl; lia|done].
Qed.

Lemma live_ticks schedule : ∀ b ss,
  Forall (tick_shape b) ss →
  StronglySorted Z.lt (clock_readings schedule) →
  Forall (λ now, b ≤ now) (clock_readings schedule) →
  Forall (λ s, ∃ b', tick_shape b' s) (checked_sensors (live p schedule ss)).
Proof.
  induction schedule as [|a schedule IH]; intros b ss Hss Hsorted Hb; simpl.
  - eapply Forall_impl; [done|]. intros s ?. by exists b.
  - destruct a as [event|now]; simpl in *.
    + apply (IH b); [|done..].
      unfold director_new_event_data. apply Forall_fmap.
      eapply Forall_impl; [done|]. intros s. apply serve_ticks.
    + apply StronglySorted_inv in Hsorted as [Hsorted Hlt].
      apply Forall_cons in Hb as [Hnow _].
      pose proof (check_sensors_ticks_live now ss) as Hc.
      destruct (check_sensors p now ss) as [ss'|e ss']; simpl in *.
      * apply (IH (now + 1)); [|done|].
        -- apply Hc. eapply Forall_impl; [done|]. intros s.
           by apply tick_shape_bound.
        -- eapply Forall_impl; [done|]. simpl. lia.
      * eapply Forall_impl.
        -- apply Hc. eapply Forall_impl; [done|]. intros s.
           by apply tick_shape_bound.
        -- intros s ?. by eexists.
Qed.

End Live.

(** X12: in live mode, when each reading of the clock is later than the
    one before, the committed times of every sensor, from index 1 on, are
    strictly increasing, whatever the order of deliveries and checks. *)
Theorem live_times_increase p locations ids schedule s :
  StronglySorted Z.lt (clock_readings schedule) →
  s ∈ checked_sensors (live p schedule (spawn_devices locations ids)) →
  unixtime s !! 0%nat = Some None ∧
  ∀ i j, (1 ≤ i)%nat → (i < j)%nat → (j < n_events s)%nat →
    ∃ a b, unixtime s !! i = Some (Some a) ∧ unixtime s !! j = Some (Some b) ∧ a < b.
Proof.
  intros Hsorted Hin.
  set (b := match clock_readings schedule with [] => 0 | now :: _ => now end).
  assert (Forall (λ now, b ≤ now) (clock_readings schedule)) as Hb.
  { subst b. destruct (clock_readings schedule) as [|now rest]; [constructor|].
    apply StronglySorted_inv in Hsorted as [_ Hlt].
    constructor; [lia|]. eapply Forall_impl; [done|]. simpl. lia. }
  assert (Forall (tick_shape b) (spawn_devices locations ids)) as Hnew.
  { unfold spawn_devices. apply Forall_fmap, Forall_forall.
    intros id _. apply new_Sensor_ticks. }
  pose proof (live_ticks p schedule b _ Hnew Hsorted Hb) as Hall.
  rewrite Forall_forall in Hall. destruct (Hall s Hin) as [b' Hshape].
  split.
  - destruct Hshape as (ts & -> & _). done.
  - intros i j. by apply (tick_shape_increase b').
Qed.

Lemma live_sensor_in :
  live_sensor ∈
    checked_sensors (live replay_params live_schedule (spawn_devices topology_A ["tag"%string])).
Proof.
  assert (checked_sensors (live replay_params live_schedule
                        (spawn_devices topology_A ["tag"%string]))
          = [live_sensor]) as -> by (vm_compute; reflexivity).
  apply list_elem_of_here.
Qed.

Lemma live_times_increase_witness :
  unixtime live_sensor !! 0%nat = Some None ∧
  ∀ i j, (1 ≤ i)%nat → (i < j)%nat → (j < n_events live_sensor)%nat →
    ∃ a b, unixtime live_sensor !! i = Some (Some a) ∧
           unixtime live_sensor !! j = Some (Some b) ∧ a < b.
Proof.
  apply (live_times_increase replay_params topology_A ["tag"%string]
           live_schedule live_sensor).
  - repeat constructor; lia.
  - apply live_sensor_in.
Defined.

Example live_sensor_ticks :
  unixtime live_sensor = [None; Some 9; Some 40] ∧
  rssi live_sensor = [[None; Some 50; Some 0]; [None; Some 40; Some 0]] ∧
  max_rssi live_sensor = [None; Some 0; None].
Proof. split_and!; reflexivity. Qed.

(** ** Reconnecting *)




Example listen_flaky_network :
  listen 0 None flaky_network replay_sensors =
    NoMorePasses 0
      (foldl director_new_event_data replay_sensors [event_of_tag; event_of_tag]).
Proof. vm_compute. reflexivity. Qed.

Example listen_bad_first_package :
  listen 0 None bad_first_package replay_sensors =
    UnboundLocalError [mkAttempt [event_of_tag] StreamEnded] replay_sensors.
Proof. vm_compute. reflexivity. Qed.

(** ** Locations of the ticks *)

Section Locations.

Implicit Types (s : Sensor) (e event : Event) (locations : list location).

Lemma py_index_last {A} (l : list A) : py_index l (-1) = last l.
Proof.
  unfold py_index. simpl. rewrite last_lookup.
  destruct l as [|x l]; [done|].
  destruct (Z.leb_spec (- Z.of_nat (length (x :: l))) (-1)) as [_|Hlt];
    [|simpl in Hlt; lia].
  f_equal. simpl length. lia.
Qed.

Lemma length_location_ids locations : ∀ i,
  length (location_ids i locations) = length (concat locations).
Proof.
  induction locations as [|loc rest IH]; intros i; simpl; [done|].
  by rewrite !length_app, length_replicate, IH.
Qed.

Lemma commit_event_unknown s event rest s' :
  committing (event :: rest) s →
  length (location_map s) = length (rssi s) →
  commit_event s event = Done s' →
  length (location_map s') = length (rssi s') ∧
  (length (rssi s) ≤ length (rssi s'))%nat ∧
  (ccons s !! ccon_id event = None →
     ∃ u, location_map_unknown s = Some u ∧
          ccons s' !! ccon_id event = Some (length (rssi s)) ∧
          location_map s' !! length (rssi s) = Some u).
Proof.
  intros Hcm Hlen Hdone.
  destruct (ccons s !! ccon_id event) as [ix|] eqn:Hix.
  - destruct (rssi s !! ix) as [row|] eqn:Hrow.
    + rewrite (commit_event_known _ _ _ _ Hix Hrow) in Hdone.
      injection Hdone as <-. simpl. rewrite length_insert. done.
    + apply lookup_ge_None in Hrow.
      apply (ix_range _ (cm_indexed _ _ Hcm)) in Hix. lia.
  - destruct (location_map_unknown s) as [u|] eqn:Hu.
    + rewrite (commit_event_new _ _ u Hix (ix_size _ (cm_indexed _ _ Hcm)) Hu) in Hdone.
      injection Hdone as <-. simpl. rewrite !length_app. simpl.
      split_and!; [lia..|]. intros _. exists u. split_and!; [done| |].
      * apply lookup_insert_eq.
      * rewrite lookup_app_r, Hlen, Nat.sub_diag by lia. done.
    + destruct (commit_event_unset _ _ Hix Hu) as [s'' Hr]. congruence.
Qed.

Lemma commit_events_prefix events : ∀ s s',
  commit_events events s = Done s' →
  location_map s `prefix_of` location_map s'.
Proof.
  induction events as [|event rest IH]; intros s s' Hdone.
  - by injection Hdone as <-.
  - simpl in Hdone. apply bind_Done in Hdone as (s1 & Hstep & Hrest).
    pose proof (commit_event_location_map s event) as Hp.
    rewrite Hstep in Hp. simpl in Hp. etrans; [done|]. by eapply IH.
Qed.

Lemma commit_events_unknown events : ∀ s s',
  committing events s →
  length (location_map s) = length (rssi s) →
  commit_events events s = Done s' →
  length (location_map s') = length (rssi s') ∧
  (length (rssi s) ≤ length (rssi s'))%nat ∧
  ∀ e, e ∈ events → ccons s !! ccon_id e = None →
    ∃ i u, location_map_unknown s = Some u ∧ (length (rssi s) ≤ i)%nat ∧
           ccons s' !! ccon_id e = Some i ∧ location_map s' !! i = Some u.
Proof.
  induction events as [|event rest IH]; intros s s' Hcm Hlen Hdone.
  - injection Hdone as <-. split_and!; [done..|].
    intros e He. by apply elem_of_nil in He.
  - simpl in Hdone. apply bind_Done in Hdone as (s1 & Hstep & Hrest).
    destruct (commit_event_Done _ _ _ _ Hcm Hstep) as (Hcm1 & Hfr & _ & Hoth).
    destruct (commit_event_unknown _ _ _ _ Hcm Hlen Hstep) as (Hlen1 & Hle1 & Hnew1).
    destruct (IH _ _ Hcm1 Hlen1 Hrest) as (Hlen' & Hle' & Hall).
    pose proof (cm_nodup _ _ Hcm) as Hnd. apply NoDup_cons in Hnd as [Hnin Hnd].
    split_and!; [done|lia|].
    intros e He Hnone. apply elem_of_cons in He as [->|He].
    + destruct (Hnew1 Hnone) as (u & Hu & Hi & Hl).
      exists (length (rssi s)), u. split_and!; [done|lia| |].
      * destruct (commit_events_kept _ _ _ _ Hcm1 Hrest Hnin) as [-> _]. done.
      * eapply prefix_lookup_Some; [done|]. by eapply commit_events_prefix.
    + assert (ccon_id e ≠ ccon_id event) as Hne.
      { intros Heq. apply Hnin. rewrite <- Heq. apply list_elem_of_fmap. by exists e. }
      destruct (Hoth _ Hne) as [Hk _].
      destruct (Hall e He) as (i & u & Hu & Hi & Hc & Hl); [congruence|].
      exists i, u. split_and!; [|lia|done..].
      destruct Hfr as (_&_&_&_&_&_&_&<-). done.
Qed.

Lemma reachable_location_map locations id s :
  reachable locations id s → length (location_map s) = length (rssi s).
Proof.
  induction 1 as [|s event _ IH|s t s' _ IH Hdone|s t _ IH].
  - simpl. unfold initial_location_map, initial_ccons.
    rewrite location_map_loop_ids. simpl. rewrite length_location_ids.
    generalize (concat locations). intros l.
    induction l as [|c l IHl] using rev_ind; [done|].
    rewrite foldl_snoc. simpl. rewrite !length_app, <- IHl. done.
  - done.
  - destruct (decide (event_buffer s = [])) as [Hnil|Hne].
    { by rewrite update_event_data_empty in Hdone. }
    rewrite update_event_data_unfold in Hdone by done.
    apply bind_Done in Hdone as (s2 & Hloop & Hfin).
    apply finish_update_Done in Hfin as (a & _ & ->). simpl.
    unfold pad_rows. rewrite length_fmap.
    clear -Hloop IH. revert Hloop.
    change (location_map s) with (location_map (opened s t)) in IH.
    change (rssi s) with (rssi (opened s t)) in IH.
    generalize dependent (opened s t). generalize (event_buffer s). clear.
    intros events. induction events as [|event rest IHe]; intros s1 Hlen Hloop.
    + by injection Hloop as <-.
    + simpl in Hloop. apply bind_Done in Hloop as (s3 & Hstep & Hrest).
      apply (IHe s3); [|done]. clear -Hlen Hstep.
      unfold commit_event, register_ccon, append_rssi in Hstep.
      repeat (case_match; simplify_eq/=; try done);
        rewrite ?length_insert, ?length_app; simpl; lia.
  - simpl. unfold pad_rows. by rewrite length_fmap.
Qed.

End Locations.

(** X14: for a configuration that names each connector once, in a state
    reached from the constructor by calls that return, a connector that
    is in the buffer and not yet known at a returning flush is given a
    new row after all the rows there were, and the entry of that row in
    [location_map] is [location_map_unknown]. *)
Theorem new_connector_gets_unknown_location locations id s t s' event :
  NoDup (concat locations) → reachable locations id s →
  event ∈ event_buffer s → ccons s !! ccon_id event = None →
  update_event_data s t = Done s' →
  ∃ i u, location_map_unknown s = Some u ∧ (length (rssi s) ≤ i)%nat ∧
         ccons s' !! ccon_id event = Some i ∧ location_map s' !! i = Some u.
Proof.
  intros Hnd Hreach Hin Hnew Hdone.
  pose proof (reachable_wf _ _ _ Hnd Hreach) as Hwf.
  pose proof (reachable_location_map _ _ _ Hreach) as Hlen.
  assert (event_buffer s ≠ []) as Hne
    by (intros H; rewrite H in Hin; by apply elem_of_nil in Hin).
  rewrite update_event_data_unfold in Hdone by done.
  apply bind_Done in Hdone as (s2 & Hloop & Hfin).
  apply finish_update_Done in Hfin as (a & _ & ->).
  destruct (commit_events_unknown _ _ _ (opened_committing s t Hwf) Hlen Hloop)
    as (_ & _ & Hall).
  destruct (Hall event Hin Hnew) as (i & u & Hu & Hi & Hc & Hl).
  by exists i, u.
Qed.

Lemma new_connector_gets_unknown_location_witness :
  ∃ i u, location_map_unknown heard_C = Some u ∧ (length (rssi heard_C) ≤ i)%nat ∧
         ccons after_C !! ccon_id event_C = Some i ∧ location_map after_C !! i = Some u.
Proof.
  apply (new_connector_gets_unknown_location topology_A "tag" heard_C 5000 after_C event_C).
  - apply topology_A_NoDup.
  - apply heard_C_reachable.
  - apply list_elem_of_here.
  - reflexivity.
  - vm_compute. reflexivity.
Defined.

(** X15: for a configuration that names each connector once, in a state
    reached from the constructor by calls that return: when every value
    appended by a returning flush is negative, the tick holds -1, and
    [location_map[-1]], which is what the plot reads for it, is the
    location of the last row. *)
Theorem negative_tick_reads_last_row locations id s t s' :
  NoDup (concat locations) → reachable locations id s →
  update_event_data s t = Done s' →
  (∀ i row v, rssi s' !! i = Some row → last row = Some (Some v) → v < 0) →
  max_rssi s' !! n_events s = Some (Some (-1)) ∧
  tick_location s' (n_events s) = last (location_map s').
Proof.
  intros Hnd Hreach Hdone Hneg.
  pose proof (reachable_wf _ _ _ Hnd Hreach) as Hwf.
  pose proof (update_event_data_Done _ _ _ Hwf Hdone) as Hfl.
  destruct (fl_max_rssi _ _ _ Hfl) as (a & Ha & Hmax).
  assert (a = -1) as ->.
  { apply (get_max_rssi_negative _ _ Ha). intros row v Hin.
    apply list_elem_of_lookup in Hin as [i Hi]. by apply (Hneg i). }
  assert (max_rssi s' !! n_events s = Some (Some (-1))) as Hk.
  { rewrite Hmax, lookup_app_r by (rewrite (wf_max_rssi _ Hwf); lia).
    by rewrite (wf_max_rssi _ Hwf), Nat.sub_diag. }
  split; [done|]. unfold tick_location. rewrite Hk. apply py_index_last.
Qed.

Lemma negative_tick_reads_last_row_witness :
  max_rssi negative_after !! n_events negative_before = Some (Some (-1)) ∧
  tick_location negative_after (n_events negative_before)
    = last (location_map negative_after).
Proof.
  apply (negative_tick_reads_last_row topology_A "tag" negative_before 2000 negative_after).
  - apply topology_A_NoDup.
  - assert (negative_before =
            new_event_data (new_event_data (new_Sensor topology_A "tag") (event_A (-50)))
              (event_B (-60))) as -> by (vm_compute; reflexivity).
    apply reach_new_event_data, reach_new_event_data, reach_new.
  - vm_compute. reflexivity.
  - intros [|[|i]] row v Hi Hv; cbn in Hi; [| |by destruct i];
      injection Hi as <-; cbn in Hv; injection Hv as <-; lia.
Defined.

(** ** Replay and live mode *)

Section Modes.

Variable p : Params.

Implicit Types (s : Sensor) (ss : list Sensor) (pending : list Event).

Lemma live_deliver events : ∀ schedule ss,
  live p ((Deliver <$> events) ++ schedule) ss =
    live p schedule (foldl director_new_event_data ss events).
Proof.
  induction events as [|event events IH]; intros schedule ss; [done|].
  simpl. apply IH.
Qed.

Lemma simulate_as_live unix_end fuel : ∀ unix_now pending ss,
  in_time_order pending →
  replay_as_checked (simulate p unix_end fuel unix_now pending ss) =
    live p (replay_schedule p unix_end fuel unix_now pending) ss.
Proof.
  induction fuel as [|fuel IH]; intros unix_now pending ss Hsorted; simpl; [done|].
  destruct (unix_now <=? unix_end); [|done].
  rewrite catch_up_in_time_order by done. simpl.
  rewrite live_deliver. simpl.
  destruct (check_sensors p unix_now _); [|done].
  apply IH. by apply not_due_in_time_order.
Qed.

Lemma catch_up_counts b unix_now pending : ∀ ss,
  Forall (λ s, (n_events s ≤ b)%nat) ss →
  Forall (λ s, (n_events s ≤ b)%nat) (catch_up unix_now pending ss).2.
Proof.
  induction pending as [|event pending IH]; intros ss Hss; [done|].
  simpl. destruct (updateTime event <? unix_now); [|done].
  apply IH. unfold director_new_event_data. apply Forall_fmap.
  eapply Forall_impl; [done|]. intros s Hs. unfold compose, serve.
  by case_bool_decide.
Qed.

End Modes.

(** X16: a replay is the live mode under one schedule: for a history in
    time order, the sensors a replay gives, and the exception if it stops
    on one, are those of the live run in which, at each cursor, the events
    before the cursor are delivered and then the clock is read as the
    cursor. *)
Theorem replay_is_a_live_run p event_history sensors fuel :
  in_time_order event_history → event_history ≠ [] →
  replay_as_checked (run_history p event_history sensors fuel) =
    live p (replay_schedule p (unix_end event_history) fuel
              (unix_start event_history) event_history) sensors.
Proof.
  intros Hsorted Hne. unfold run_history.
  destruct event_history as [|e0 rest]; [done|].
  by apply simulate_as_live.
Qed.

Lemma replay_is_a_live_run_witness :
  replay_as_checked (run_history replay_params replay_history replay_sensors 12) =
    live replay_params
      (replay_schedule replay_params (unix_end replay_history) 12
         (unix_start replay_history) replay_history) replay_sensors.
Proof.
  apply (replay_is_a_live_run replay_params replay_history replay_sensors 12).
  - apply replay_history_in_time_order.
  - discriminate.
Defined.

(** ** Ticks and turns *)

Section Counts.

Variable c : Setup.

Implicit Types (s : Sensor) (ss : list Sensor) (pending : list Event).

Lemma check_sensor_in_counts unix_now s :
  (n_events (state_of (check_sensor_in c unix_now s)) ≤ S (n_events s))%nat.
Proof.
  unfold check_sensor_in. destruct (settled_in c unix_now s).
  - destruct (update_event_data_ticks s unix_now) as [[_ ->]|[_ ->]]; lia.
  - destruct (args_timeout c) as [seconds|text]; [|simpl; lia].
    destruct (float_sub c unix_now (last_event s) >? seconds); simpl; lia.
Qed.

Lemma check_sensors_in_counts unix_now b ss :
  Forall (λ s, (n_events s ≤ b)%nat) ss →
  Forall (λ s, (n_events s ≤ S b)%nat)
    (checked_sensors (check_sensors_in c unix_now ss)).
Proof.
  induction 1 as [|s ss Hs Hss IH]; simpl; [done|].
  pose proof (check_sensor_in_counts unix_now s) as Hc.
  destruct (check_sensor_in c unix_now s) as [s'|e s']; simpl in *.
  - destruct (check_sensors_in c unix_now ss); simpl in *; constructor; (lia || done).
  - constructor; [lia|]. eapply Forall_impl; [done|]. simpl. lia.
Qed.

Lemma simulate_in_counts unix_end fuel : ∀ unix_now pending ss b,
  Forall (λ s, (n_events s ≤ b)%nat) ss →
  Forall (λ s, (n_events s ≤ b + length (cursors c unix_end fuel unix_now))%nat)
    (sensors_of (simulate_in c unix_end fuel unix_now pending ss)).
Proof.
  induction fuel as [|fuel IH]; intros unix_now pending ss b Hss;
    cbn [simulate_in cursors].
  - eapply Forall_impl; [done|]. simpl. lia.
  - destruct (Z.leb_spec unix_now unix_end) as [Hle|Hgt].
    + pose proof (check_sensors_in_counts unix_now b _
                    (catch_up_counts b unix_now pending ss Hss)) as Hc.
      destruct (check_sensors_in c unix_now (catch_up unix_now pending ss).2);
        simpl in *.
      * eapply Forall_impl; [by apply (IH _ _ _ (S b))|]. simpl. lia.
      * eapply Forall_impl; [done|]. simpl. lia.
    + eapply Forall_impl; [done|]. simpl. lia.
Qed.

End Counts.

(** X17: a sensor commits at most one tick per turn of the replay loop:
    whatever the step, the rounding of the sums and the way the loop is
    left, [n_events] of a sensor is at most 1, for the entry of the
    constructor, plus the number of turns made. *)
Theorem one_tick_per_turn c locations ids first rest fuel s :
  s ∈ sensors_of (run_history_in c (first :: rest) (spawn_devices locations ids) fuel) →
  (n_events s ≤
     1 + length (cursors c (updateTime (List.last rest first)) fuel (updateTime first)))%nat.
Proof.
  intros Hin. unfold run_history_in in Hin.
  assert (Forall (λ s, (n_events s ≤ 1)%nat) (spawn_devices locations ids)) as Hnew.
  { unfold spawn_devices. apply Forall_fmap, Forall_forall. intros id _. simpl. lia. }
  pose proof (simulate_in_counts c (updateTime (List.last rest first)) fuel
                (updateTime first) (first :: rest) _ 1 Hnew) as Hall.
  rewrite Forall_forall in Hall. by apply Hall.
Qed.

Lemma later_sensor_in :
  later_sensor ∈
    sensors_of (run_history_in steady later_history
                  (spawn_devices topology_A ["tag"%string]) 12).
Proof.
  assert (sensors_of (run_history_in steady later_history
                        (spawn_devices topology_A ["tag"%string]) 12)
          = [later_sensor]) as -> by (vm_compute; reflexivity).
  apply list_elem_of_here.
Qed.

Lemma one_tick_per_turn_witness :
  (n_events later_sensor ≤ 1 + length (cursors steady 110 12 100))%nat.
Proof.
  apply (one_tick_per_turn steady topology_A ["tag"%string]
           (mkEvent "projects/p/devices/tag" "ConnA" 50 100)
           [ mkEvent "projects/p/devices/tag" "ConnB" 40 101;
             mkEvent "projects/p/devices/other" "ConnA" 70 106;
             mkEvent "projects/p/devices/tag" "ConnA" 60 110 ] 12 later_sensor).
  apply later_sensor_in.
Defined.

(** The sensor of the later replay ticks twice in its eleven turns: an
    empty tick at the first cursor, since a fresh sensor counts as timed
    out, and the tick of ConnA and ConnB. *)
Example later_sensor_ticks :
  n_events later_sensor = 3%nat ∧
  length (cursors steady 110 12 100) = 11%nat ∧
  unixtime later_sensor = [None; Some 100; Some 104] ∧
  max_rssi later_sensor = [None; None; Some 0].
Proof. split_and!; vm_compute; reflexivity. Qed.

(** ** The spans of the plot *)

Section Plot.

Variable lm : list nat.
Variable rr : list (option Z).
Variable n : nat.
Hypothesis rr_length : length rr = n.
Hypothesis rr_in_range : ∀ k a, rr !! k = Some (Some a) → is_Some (py_index lm a).

Implicit Types (i ix k l : nat) (spans : list span).

Lemma located_unique k l l' : located lm rr k l → located lm rr k l' → l = l'.
Proof. intros (a & Ha & Hl) (a' & Ha' & Hl'). congruence. Qed.

Lemma location_at_located k a :
  rr !! k = Some (Some a) →
  ∃ l, location_at lm (Some a) = inr l ∧ located lm rr k l.
Proof.
  intros Hk. destruct (rr_in_range k a Hk) as [l Hl].
  exists l. split; [simpl; by rewrite Hl|by exists a].
Qed.

Lemma chained_run ix i l :
  chained lm rr ix i → (ix < i)%nat → located lm rr (i - 1) l →
  ∀ k, (ix ≤ k)%nat → (k < i)%nat → located lm rr k l.
Proof.
  intros Hch Hlt Hl.
  assert (∀ d k, (k + d = i - 1)%nat → (ix ≤ k)%nat → located lm rr k l) as Hall.
  { induction d as [|d IH]; intros k Hk Hix.
    - replace k with (i - 1)%nat by lia. done.
    - destruct (Hch (S k)) as (l' & Hl1 & Hl0); [lia..|].
      replace (S k - 1)%nat with k in Hl0 by lia.
      assert (located lm rr (S k) l) as Hl1' by (apply IH; lia).
      by rewrite (located_unique _ _ _ Hl1' Hl1). }
  intros k Hix Hk. apply (Hall (i - 1 - k)%nat); lia.
Qed.

(** The tick before the turn [i] has a location, once [rr[ix]] was seen
    not to be [None]. *)
Lemma previous_located ix i a0 :
  chained lm rr ix i → (ix < i)%nat → rr !! ix = Some (Some a0) →
  ∃ ap lp, rr !! (i - 1)%nat = Some (Some ap) ∧
           location_at lm (Some ap) = inr lp ∧ located lm rr (i - 1) lp.
Proof.
  intros Hch Hlt Hix.
  destruct (decide (i - 1 = ix)%nat) as [Heq|Hne].
  - rewrite Heq. destruct (location_at_located ix a0 Hix) as (l & Hl & Hloc).
    by exists a0, l.
  - destruct (Hch (i - 1)%nat) as (l & (ap & Hap & Hpy) & _); [lia..|].
    destruct (location_at_located _ _ Hap) as (l' & Hl' & Hloc').
    by exists ap, l'.
Qed.

Lemma plot_turn_returns ix spans i :
  (ix ≤ i)%nat → (i < n)%nat → chained lm rr ix i → Forall (span_good lm rr n) spans →
  ∃ ix' spans', plot_turn lm rr n (ix, spans) i = inr (ix', spans') ∧
    (ix' ≤ S i)%nat ∧ chained lm rr ix' (S i) ∧ Forall (span_good lm rr n) spans'.
Proof.
  intros Hle Hlt Hch Hspans. unfold plot_turn. simpl.
  destruct (Nat.eqb_spec i ix) as [->|Hne].
  { exists ix, spans. split_and!; [done|lia| |done]. intros k ? ?. lia. }
  assert (ix < i)%nat as Hix by lia.
  destruct (lookup_lt_is_Some_2 rr ix) as [r0 Hr0]; [lia|]. rewrite Hr0.
  destruct r0 as [a0|].
  2:{ exists i, spans. split_and!; [done|lia| |done]. intros k ? ?. lia. }
  destruct (lookup_lt_is_Some_2 rr i) as [ri Hri]; [lia|]. rewrite Hri.
  destruct (previous_located ix i a0 Hch Hix Hr0) as (ap & lp & Hap & Hlp & Hloc).
  assert (∃ ix' spans',
            match rr !! (i - 1)%nat with
            | Some rp =>
                match location_at lm rp with
                | inl e => inl e
                | inr lp0 => inr (i, spans ++ [(ix, i, lp0)])
                end
            | None => inl IndexError
            end = inr (ix', spans') ∧ (ix' ≤ S i)%nat ∧ chained lm rr ix' (S i) ∧
            Forall (span_good lm rr n) spans') as Hbreak.
  { rewrite Hap, Hlp. exists i, (spans ++ [(ix, i, lp)]).
    split_and!; [done|lia| |].
    - intros k ? ?. lia.
    - apply Forall_app. split; [done|]. apply Forall_singleton.
      split_and!; [done..|]. simpl. by apply chained_run. }
  destruct ri as [ai|]; [|done].
  destruct (location_at_located i ai Hri) as (li & Hli & Hloci).
  unfold span_ends. rewrite Hli, Hap, Hlp.
  destruct (negb (li =? lp)%nat || (i =? n - 1)%nat) eqn:Hcond.
  - by rewrite Hap, Hlp in Hbreak.
  - apply orb_false_iff in Hcond as [Heq _].
    apply negb_false_iff, Nat.eqb_eq in Heq. subst lp.
    exists ix, spans. split_and!; [done|lia| |done].
    intros k Hk1 Hk2. destruct (decide (k = i)) as [->|Hki].
    + by exists li.
    + apply Hch; lia.
Qed.

Lemma plot_loop_returns len : ∀ i ix spans,
  (i + len = n)%nat → (ix ≤ i)%nat → chained lm rr ix i → Forall (span_good lm rr n) spans →
  ∃ st, plot_loop lm rr n (seq i len) (ix, spans) = inr st ∧ Forall (span_good lm rr n) st.2.
Proof.
  induction len as [|len IH]; intros i ix spans Hn Hle Hch Hspans; simpl.
  - by exists (ix, spans).
  - destruct (plot_turn_returns ix spans i) as (ix' & spans' & -> & Hle' & Hch' & Hs');
      [done|lia|done..|].
    apply IH; [lia|done..].
Qed.

End Plot.

Section PlotOfSensor.

Implicit Types (s : Sensor) (locations : list location).

Lemma py_index_in_range (lm : list nat) a :
  -1 ≤ a < Z.of_nat (length lm) → (1 ≤ length lm)%nat → is_Some (py_index lm a).
Proof.
  intros Ha Hlen. unfold py_index.
  destruct (Z.leb_spec 0 a).
  - apply lookup_lt_is_Some. lia.
  - destruct (Z.leb_spec (- Z.of_nat (length lm)) a); [|lia].
    apply lookup_lt_is_Some. lia.
Qed.

Lemma reachable_max_rssi_in_range locations id s :
  NoDup (concat locations) → reachable locations id s → max_rssi_in_range s.
Proof.
  intros Hnd Hreach. unfold max_rssi_in_range.
  induction Hreach as [|s event Hreach IH|s t s' Hreach IH Hdone|s t Hreach IH].
  - simpl. by repeat constructor.
  - done.
  - pose proof (reachable_wf _ _ _ Hnd Hreach) as Hwf.
    pose proof (update_event_data_Done _ _ _ Hwf Hdone) as Hfl.
    pose proof (reachable_location_map _ _ _
                  (reach_update_event_data _ _ _ _ _ Hreach Hdone)) as Hlen.
    pose proof (update_event_data_location_map s t) as Hp.
    rewrite Hdone in Hp. simpl in Hp. apply prefix_length in Hp.
    assert (1 ≤ length (rssi s'))%nat as Hrows.
    { destruct (event_buffer s) as [|e buffer] eqn:Hbuf.
      - by rewrite update_event_data_empty in Hdone.
      - destruct (fl_committed _ _ _ Hfl e) as (i & row & _ & Hrow & _).
        { rewrite Hbuf. apply list_elem_of_here. }
        apply lookup_lt_Some in Hrow. lia. }
    destruct (fl_max_rssi _ _ _ Hfl) as (a & Ha & ->).
    apply Forall_app. split.
    + eapply Forall_impl; [done|]. intros k Hk a' ->.
      destruct (Hk a' eq_refl). lia.
    + apply Forall_singleton. intros a' [= <-].
      destruct (max_loop_cases _ _ _ _ _ Ha) as [[-> _]|(k & row & v & -> & Hk & _)].
      * lia.
      * apply lookup_lt_Some in Hk. lia.
  - simpl. apply Forall_app. split; [done|]. by apply Forall_singleton.
Qed.

Lemma filled_spans_good locations id s :
  NoDup (concat locations) → reachable locations id s →
  ∃ spans, filled_spans s = inr spans ∧ Forall (span_ok s) spans.
Proof.
  intros Hnd Hreach.
  pose proof (reachable_wf _ _ _ Hnd Hreach) as Hwf.
  pose proof (reachable_max_rssi_in_range _ _ _ Hnd Hreach) as Hrange.
  unfold max_rssi_in_range in Hrange. rewrite Forall_forall in Hrange.
  destruct (plot_loop_returns (location_map s) (max_rssi s) (length (unixtime s)))
    with (len := length (unixtime s)) (i := 0%nat) (ix := 0%nat)
         (spans := @nil span) as (st & Hst & Hgood).
  - by rewrite (wf_max_rssi _ Hwf), (wf_unixtime _ Hwf).
  - intros k a Hk.
    destruct (Hrange (Some a)) with (a := a) as [Ha Hlen]; [|done|].
    + apply list_elem_of_lookup. eauto.
    + by apply py_index_in_range.
  - done.
  - done.
  - intros k ? ?. lia.
  - constructor.
  - exists st.2. unfold filled_spans. rewrite Hst. split; [done|].
    eapply Forall_impl; [done|]. intros sp (Hlt & Hn & Hloc).
    split_and!; [done|by rewrite <- (wf_unixtime _ Hwf)|].
    intros k Hk1 Hk2. destruct (Hloc k Hk1 Hk2) as (a & Ha & Hl).
    unfold tick_location. by rewrite Ha.
Qed.

End PlotOfSensor.

(** X18: for a sensor in a state between calls, on a configuration that
    names each connector once, the loop of [plot] that finds the spans
    goes through all ticks without an exception from its indexing: it
    never reads [rr] outside its range, never indexes [location_map] with
    [None] and never outside its range. *)
Theorem plot_spans_never_raise locations id s :
  NoDup (concat locations) → reachable locations id s →
  ∃ spans, filled_spans s = inr spans.
Proof.
  intros Hnd Hreach.
  destruct (filled_spans_good _ _ _ Hnd Hreach) as (spans & Hs & _). by exists spans.
Qed.

Lemma plotted_sensor_reachable : reachable topology_A "tag" plotted_sensor.
Proof.
  assert (plotted_sensor =
          update_empty
            (state_of (update_event_data
               (new_event_data (update_empty after_C 6000) (event_A 20)) 7000)) 8000)
    as -> by (vm_compute; reflexivity).
  apply reach_update_empty.
  apply (reach_update_event_data _ _
           (new_event_data (update_empty after_C 6000) (event_A 20)) 7000);
    [|vm_compute; reflexivity].
  apply reach_new_event_data, reach_update_empty.
  apply (reach_update_event_data _ _ heard_C 5000); [apply heard_C_reachable|].
  vm_compute. reflexivity.
Qed.

Lemma plot_spans_never_raise_witness :
  ∃ spans, filled_spans plotted_sensor = inr spans.
Proof.
  apply (plot_spans_never_raise topology_A "tag" plotted_sensor).
  - apply topology_A_NoDup.
  - apply plotted_sensor_reachable.
Defined.

(** X19: for a configuration that names each connector once and a
    sensor in a state reached from the constructor by calls that return,
    every span that [plot] fills starts before it ends, ends at a committed tick, and covers, from its start to the
    tick before its end, only ticks whose maximum lies in the location
    the span is coloured for. *)
Theorem plot_spans_cover_one_location locations id s spans sp :
  NoDup (concat locations) → reachable locations id s →
  filled_spans s = inr spans → sp ∈ spans →
  (sp.1.1 < sp.1.2)%nat ∧ (sp.1.2 < n_events s)%nat ∧
  ∀ k, (sp.1.1 ≤ k)%nat → (k < sp.1.2)%nat → tick_location s k = Some sp.2.
Proof.
  intros Hnd Hreach Hspans Hin.
  destruct (filled_spans_good _ _ _ Hnd Hreach) as (spans' & Hs & Hgood).
  rewrite Hspans in Hs. injection Hs as <-.
  rewrite Forall_forall in Hgood. by apply Hgood.
Qed.

Example plotted_sensor_spans :
  max_rssi plotted_sensor = [None; Some 0; Some 2; None; Some 0; None] ∧
  location_map plotted_sensor = [0; 0; 1]%nat ∧
  filled_spans plotted_sensor = inr [(1, 2, 0); (2, 3, 1); (4, 5, 0)]%nat.
Proof. split_and!; vm_compute; reflexivity. Qed.

Lemma plot_spans_cover_one_location_witness :
  (2 < 3)%nat ∧ (3 < n_events plotted_sensor)%nat ∧
  ∀ k, (2 ≤ k)%nat → (k < 3)%nat → tick_location plotted_sensor k = Some 1%nat.
Proof.
  apply (plot_spans_cover_one_location topology_A "tag" plotted_sensor
           [(1, 2, 0); (2, 3, 1); (4, 5, 0)]%nat (2, 3, 1)%nat).
  - apply topology_A_NoDup.
  - apply plotted_sensor_reachable.
  - vm_compute. reflexivity.
  - apply list_elem_of_further, list_elem_of_here.
Defined.
